(** * EveryDream caption tool: a shallow embedding of
      [scripts/image_caption_gui.py] and the properties of its collection,
      search, caption store and spell-check debounce.

    The file follows the source top to bottom: the Python values the script
    works on, the library functions it calls ([os.path.splitext], [pathlib],
    file renames, Tk's [after] queue), then the three classes
    [CaptionedImage], [SpellcheckText] and [ImageView], and last the
    theorems. *)

From Stdlib Require Import ZArith Lia String Ascii List.
From stdpp Require Import base numbers option list gmap strings.
From Equations Require Import Equations.

Local Open Scope Z_scope.

(** ** Python values *)

(** A Python [str] is a sequence of Unicode code points. *)
Abbreviation str := (list N).

(** A literal of the source, written with its ASCII characters. *)
Definition py (s : string) : str := N_of_ascii <$> list_ascii_of_string s.
Arguments py s%_string.

Definition CR : N := 13.
Definition LF : N := 10.
Definition DOT : N := 46.
Definition SLASH : N := 47.

(** [l[i]] and [del l[i]]: an index in [0, len) counts from the front, one
    in [-len, 0) from the back, anything else is an [IndexError] ([None]). *)
Definition norm_index (len : nat) (i : Z) : option nat :=
  if bool_decide (0 ≤ i < Z.of_nat len) then Some (Z.to_nat i)
  else if bool_decide (- Z.of_nat len ≤ i < 0) then Some (Z.to_nat (Z.of_nat len + i))
  else None.

Definition getitem {A} (l : list A) (i : Z) : option A :=
  k ← norm_index (length l) i; l !! k.

Definition delitem {A} (l : list A) (i : Z) : option (list A) :=
  k ← norm_index (length l) i; Some (delete k l).

(** [range(start, stop)]; empty when [stop <= start]. *)
Definition range (start stop : Z) : list Z := seqZ start (stop - start).

(** [q in s] for two strings: [q] occurs in [s] as a contiguous run of code
    points, compared exactly. *)
Fixpoint startswith (q s : str) : bool :=
  match q, s with
  | [], _ => true
  | _ :: _, [] => false
  | c :: q', d :: s' => (c =? d)%N && startswith q' s'
  end.

Fixpoint contains (q s : str) : bool :=
  startswith q s ||
  match s with
  | [] => false
  | _ :: s' => contains q s'
  end.

(** [s.replace(c, '')] for a one-character [c]. *)
Definition remove_char (c : N) (s : str) : str :=
  filter (λ d, d ≠ c) s.

(** [str.isspace] on one code point: the code points CPython's
    [_PyUnicode_IsWhitespace] accepts. *)
Definition isspace (c : N) : bool :=
  ((9 <=? c) && (c <=? 13) || (28 <=? c) && (c <=? 32) ||
   (c =? 133) || (c =? 160) || (c =? 5760) ||
   (8192 <=? c) && (c <=? 8202) || (c =? 8232) || (c =? 8233) ||
   (c =? 8239) || (c =? 8287) || (c =? 12288))%N.

Fixpoint lstrip (s : str) : str :=
  match s with
  | c :: s' => if isspace c then lstrip s' else s
  | [] => []
  end.

Definition rstrip (s : str) : str := reverse (lstrip (reverse s)).

(** [s.strip()] *)
Definition strip (s : str) : str := rstrip (lstrip s).

(** [s.rfind(c)] for a one-character [c]: the highest index, or [-1]. *)
Fixpoint rfind_from (c : N) (s : str) (i acc : Z) : Z :=
  match s with
  | [] => acc
  | d :: s' => rfind_from c s' (i + 1) (if (d =? c)%N then i else acc)
  end.

Definition rfind (c : N) (s : str) : Z := rfind_from c s 0 (-1).

(** [s[a:b]] for [0 <= a], [0 <= b]. *)
Definition slice (s : str) (a b : Z) : str :=
  take (Z.to_nat b - Z.to_nat a)%nat (drop (Z.to_nat a) s).

(** ** [os.path.splitext] (posixpath: [sep = '/'], no [altsep], [extsep = '.'])

    The extension starts at the last dot of the last path component, unless
    that component has only dots before it; the extension keeps its dot. *)
Definition splitext (p : str) : str * str :=
  let sepIndex := rfind SLASH p in
  let dotIndex := rfind DOT p in
  if bool_decide (dotIndex > sepIndex)
     && existsb (λ d, negb (d =? DOT)%N) (slice p (sepIndex + 1) dotIndex)
  then (take (Z.to_nat dotIndex) p, drop (Z.to_nat dotIndex) p)
  else (p, []).

(** [os.path.join(a, b)] (posixpath) *)
Definition path_join (a b : str) : str :=
  if startswith [SLASH] b then b
  else if bool_decide (a = []) || bool_decide (last a = Some SLASH) then a ++ b
  else a ++ [SLASH] ++ b.

(** [a < b] on strings: lexicographic on code points. *)
Fixpoint str_lt (a b : str) : bool :=
  match a, b with
  | _, [] => false
  | [], _ :: _ => true
  | c :: a', d :: b' => (c <? d)%N || (c =? d)%N && str_lt a' b'
  end.

(** ** [pathlib.Path]

    A file path is kept as the directory it lies in and its final component.
    The paths of the script are built from a directory and a file name that
    [os.walk] yields, or from a directory and the name of another path, so
    no parsing of separators is needed. *)
Record Path := mkPath { parent : str; name : str }.

#[global] Instance Path_eq_dec : EqDecision Path.
Proof. solve_decision. Defined.

#[global] Instance Path_countable : Countable Path.
Proof.
  refine (inj_countable' (λ p, (parent p, name p)) (λ '(d, n), mkPath d n) _).
  by intros [].
Defined.

(** [str(p)] *)
Definition path_str (p : Path) : str := path_join (parent p) (name p).

(** [p.stem]: the name without its last suffix; a name with no dot, with its
    only dot in front, or ending in a dot has no suffix. *)
Definition stem (p : Path) : str :=
  let i := rfind DOT (name p) in
  if bool_decide (0 < i < Z.of_nat (length (name p)) - 1)
  then take (Z.to_nat i) (name p)
  else name p.

(** ** The file system

    Files map to their content; a caption file holds text, and the bytes of
    an image file are an opaque content of the same type. The text codec
    (UTF-8 with [newline='']) translates nothing, so a file is modelled by
    the text it decodes to. Of the errors of the operating system only a
    missing source file of a rename is modelled. *)
Record Disk := mkDisk { files : gmap Path str; dirs : gset str }.

(** [p.exists()] for a file path, and for a directory. *)
Definition file_exists (p : Path) (d : Disk) : bool :=
  bool_decide (is_Some (files d !! p)).

Definition dir_exists (p : str) (d : Disk) : bool :=
  bool_decide (p ∈ dirs d).

(** [p.mkdir()] *)
Definition mkdir (p : str) (d : Disk) : Disk :=
  mkDisk (files d) ({[ p ]} ∪ dirs d).

(** [src.rename(dst)]: [None] stands for [FileNotFoundError]. An existing
    target is replaced, as POSIX does. *)
Definition rename (src dst : Path) (d : Disk) : option Disk :=
  c ← files d !! src;
  Some (mkDisk (<[dst := c]> (delete src (files d))) (dirs d)).

(** ** class CaptionedImage *)
Module CaptionedImage.

(** [__init__] stores [image_path] and its parent; the parent never
    changes afterwards, so it is read off the path. *)
Record t := new { path : Path }.

Definition base_path (self : t) : str := parent (path self).

Definition caption_path (self : t) : Path :=
  mkPath (base_path self) (stem (path self) ++ py ".txt").

Definition read_caption (self : t) (d : Disk) : str :=
  match files d !! caption_path self with
  | Some text => text
  | None => []
  end.

Definition write_caption (self : t) (caption : str) (d : Disk) : Disk :=
  mkDisk (<[caption_path self := caption]> (files d)) (dirs d).

Section Order.
(** [str.lower] maps through the Unicode case tables, which are not
    part of the script; it is a parameter of the order. *)
Variable lower : str → str.

(** [__lt__] *)
Definition lt (self other : t) : bool :=
  str_lt (lower (path_str (path self))) (lower (path_str (path other))).

(** [list.sort()] calls [__lt__] only and is stable: an image is put in
    front of the first one that is not smaller than it. *)
Fixpoint insert_sorted (x : t) (l : list t) : list t :=
  match l with
  | [] => [x]
  | y :: l' => if lt y x then y :: insert_sorted x l' else x :: l
  end.

Definition sort (l : list t) : list t := foldr insert_sorted [] l.
End Order.

End CaptionedImage.

(** [str.lower] on the ASCII letters, for running the model on examples. *)
Definition ascii_lower (s : str) : str :=
  (λ c, if (65 <=? c) && (c <=? 90) then c + 32 else c)%N <$> s.


(** ** class SpellcheckText

    The widget's debounce: [on_modify] runs on every [<<TextModified>>]
    event, [on_modified] is the callback it schedules. Tk's timer queue is
    modelled with a logical clock in milliseconds: [after] files a timer
    under a fresh id, [after_cancel] removes it, and the event loop runs a
    timer's callback when the clock reaches its deadline. What [on_modified]
    does to the tags is not modelled; the run is recorded with its time. *)
Module SpellcheckText.

Record t := mk {
  now : Z;
  afterid : option nat;
  timers : list (nat * Z);
  next_id : nat;
  checked : list Z
}.

(** the widget as [__init__] leaves it, at time [t0] *)
Definition init (t0 : Z) : t := mk t0 None [] 0 [].

Definition after (ms : Z) (self : t) : nat * t :=
  (next_id self,
   mk (now self) (afterid self) (timers self ++ [(next_id self, now self + ms)])
      (S (next_id self)) (checked self)).

Definition after_cancel (id : nat) (self : t) : t :=
  mk (now self) (afterid self) (filter (λ tm, tm.1 ≠ id) (timers self))
     (next_id self) (checked self).

(** [delay = 200 # ms], the local variable of [on_modify] *)
Definition delay : Z := 200.

Definition on_modify (self : t) : t :=
  let self :=
    match afterid self with
    | Some id => after_cancel id self
    | None => self
    end in
  let '(id, self) := after delay self in
  mk (now self) (Some id) (timers self) (next_id self) (checked self).

Definition on_modified (self : t) : t :=
  mk (now self) None (timers self) (next_id self) (checked self ++ [now self]).

(** The event loop. [next_due time] is the pending timer with the earliest
    deadline, when that deadline is no later than [time]. *)
Definition earliest (tms : list (nat * Z)) : option (nat * Z) :=
  foldr (λ tm best,
           match best with
           | Some b => if tm.2 <=? b.2 then Some tm else Some b
           | None => Some tm
           end) None tms.

Definition next_due (time : Z) (self : t) : option (nat * Z) :=
  match earliest (timers self) with
  | Some tm => if tm.2 <=? time then Some tm else None
  | None => None
  end.

(** Runs the callbacks that are due up to [time], earliest first, each at
    its deadline. A callback files no timer, so the number of pending timers
    bounds the number of rounds. *)
Fixpoint fire_due (rounds : nat) (time : Z) (self : t) : t :=
  match rounds with
  | O => self
  | S rounds' =>
      match next_due time self with
      | Some tm =>
          fire_due rounds' time
            (on_modified
               (mk (Z.max (now self) tm.2) (afterid self)
                   (filter (λ tm', tm'.1 ≠ tm.1) (timers self))
                   (next_id self) (checked self)))
      | None => self
      end
  end.

(** the clock moves on to [time] *)
Definition advance (time : Z) (self : t) : t :=
  let self := fire_due (length (timers self)) time self in
  mk (Z.max (now self) time) (afterid self) (timers self) (next_id self) (checked self).

(** a [<<TextModified>>] event at [time] *)
Definition modified_at (time : Z) (self : t) : t := on_modify (advance time self).

Definition run (events : list Z) (self : t) : t :=
  foldl (λ w time, modified_at time w) self events.

(** every event arrives less than [delay] after the one before it *)
Fixpoint within_window (prev : Z) (events : list Z) : Prop :=
  match events with
  | [] => True
  | time :: rest => prev ≤ time < prev + delay ∧ within_window time rest
  end.

End SpellcheckText.

(** ** class ImageView *)

Definition IMG_EXT : list str := [py "jpg"; py "jpeg"; py "png"].

Module ImageView.

(** the exceptions that the methods can end in *)
Inductive exn :=
  | IndexError | ZeroDivisionError | ValueError | AttributeError
  | TypeError | FileNotFoundError.

(** What a method does to the files and to the cursor, in the order in which
    it does it. *)
Inductive Effect :=
  | Wrote (p : Path) (text : str)
  | Moved (src dst : Path)
  | Cursor (i : Z).

(** The fields of the object that the methods use, with [caption_field] the
    text held by the editing widget, and next to them the file system that
    the methods act on and the journal of their effects. *)
Record t := mk {
  base_path : option str;
  images : list CaptionedImage.t;
  index : Z;
  search_text : str;
  caption_field : str;
  disk : Disk;
  journal : list Effect
}.

(** the object as [__init__] leaves it, on a given disk *)
Definition init (d : Disk) : t := mk None [] 0 [] [] d [].


(** A method ends normally with a value or in an exception; the object keeps
    the changes made up to an exception (Tk reports the exception of a
    callback and carries on). *)
Inductive Res (A : Type) :=
  | Ok (a : A) (self : t)
  | Raise (e : exn) (self : t).
Arguments Ok {A} a self.
Arguments Raise {A} e self.

Definition M (A : Type) : Type := t → Res A.

#[global] Instance M_ret : MRet M := λ A a self, Ok a self.

#[global] Instance M_bind : MBind M := λ A B f m self,
  match m self with
  | Ok a self' => f a self'
  | Raise e self' => Raise e self'
  end.

Definition raise {A} (e : exn) : M A := λ self, Raise e self.
Definition get : M t := λ self, Ok self self.
Definition put (self : t) : M unit := λ _, Ok tt self.

Definition state_of {A} (r : Res A) : t :=
  match r with
  | Ok _ self => self
  | Raise _ self => self
  end.

Definition raised {A} (r : Res A) : option exn :=
  match r with
  | Ok _ _ => None
  | Raise e _ => Some e
  end.

Definition with_index (i : Z) (self : t) : t :=
  mk (base_path self) (images self) i (search_text self) (caption_field self)
     (disk self) (journal self ++ [Cursor i]).

Definition with_images (l : list CaptionedImage.t) (self : t) : t :=
  mk (base_path self) l (index self) (search_text self) (caption_field self)
     (disk self) (journal self).

Definition with_base_path (dir : str) (self : t) : t :=
  mk (Some dir) (images self) (index self) (search_text self)
     (caption_field self) (disk self) (journal self).

Definition with_search_text (q : str) (self : t) : t :=
  mk (base_path self) (images self) (index self) q (caption_field self)
     (disk self) (journal self).

Definition with_caption_field (text : str) (self : t) : t :=
  mk (base_path self) (images self) (index self) (search_text self) text
     (disk self) (journal self).

Definition with_disk (d : Disk) (self : t) : t :=
  mk (base_path self) (images self) (index self) (search_text self)
     (caption_field self) d (journal self).

Definition record (e : Effect) (self : t) : t :=
  mk (base_path self) (images self) (index self) (search_text self)
     (caption_field self) (disk self) (journal self ++ [e]).

(** [caption_field.get(1.0, tk.END)]: the text of the widget, which Tk ends
    with a newline. *)
Definition caption_field_get (self : t) : str := caption_field self ++ [LF].

(** The second line of [store_caption]:
    [txt.replace('\r', '').replace('\n', '').strip()] *)
Definition normalize (txt : str) : str :=
  strip (remove_char LF (remove_char CR txt)).

Definition store_caption : M unit :=
  self ← get;
  let txt := caption_field_get self in
  let txt := normalize txt in
  match getitem (images self) (index self) with
  | None => raise IndexError
  | Some img =>
      put (record (Wrote (CaptionedImage.caption_path img) txt)
             (with_disk (CaptionedImage.write_caption img txt (disk self)) self))
  end.

Definition set_index (index : Z) : M unit :=
  self ← get;
  if bool_decide (length (images self) = 0%nat) then raise ZeroDivisionError
  else put (with_index (index `mod` Z.of_nat (length (images self))) self).

(** Of [update_ui] the part that concerns the collection: with no image the
    first statement reads [self.filename], which no statement of the class
    assigns; otherwise the caption of the current image replaces the text of
    the widget. Drawing the image is not modelled. *)
Definition update_ui : M unit :=
  self ← get;
  if bool_decide (length (images self) = 0%nat) then raise AttributeError
  else
    match getitem (images self) (index self) with
    | None => raise IndexError
    | Some img =>
        put (with_caption_field (CaptionedImage.read_caption img (disk self)) self)
    end.

Definition go_to_image (index : Z) : M unit :=
  self ← get;
  if bool_decide (length (images self) = 0%nat) then mret tt
  else
    store_caption;;
    set_index index;;
    update_ui.

Definition next_image : M unit :=
  self ← get; go_to_image (index self + 1).

Definition prev_image : M unit :=
  self ← get; go_to_image (index self - 1).

(** [random] is the function that [from random import random] binds; it has
    no attribute [shuffle]. *)
Definition shuffle_images : M unit :=
  store_caption;;
  raise AttributeError.

(** [p.rename(dst)] on the disk of the object *)
Definition rename_file (src dst : Path) : M unit :=
  self ← get;
  match rename src dst (disk self) with
  | None => raise FileNotFoundError
  | Some d => put (record (Moved src dst) (with_disk d self))
  end.

Definition delete_image : M unit :=
  self ← get;
  if bool_decide (length (images self) = 0%nat) then mret tt
  else
    match getitem (images self) (index self) with
    | None => raise IndexError
    | Some img =>
        match base_path self with
        | None => raise TypeError
        | Some base =>
            let trash_path := path_join base (py "_deleted") in
            (if dir_exists trash_path (disk self) then mret tt
             else put (with_disk (mkdir trash_path (disk self)) self));;
            rename_file (CaptionedImage.path img)
                        (mkPath trash_path (name (CaptionedImage.path img)));;
            let caption_path := CaptionedImage.caption_path img in
            self ← get;
            (if file_exists caption_path (disk self)
             then rename_file caption_path (mkPath trash_path (name caption_path))
             else mret tt);;
            self ← get;
            match delitem (images self) (index self) with
            | None => raise IndexError
            | Some l =>
                put (with_images l self);;
                set_index (index self);;
                update_ui
            end
        end
    end.

Definition load_all_captions : M (list str) :=
  self ← get;
  mret ((λ i, CaptionedImage.read_caption i (disk self)) <$> images self).

(** [next(i for i in indices if search_text in captions[i])]: the first
    index whose caption contains the text; [inr None] is [StopIteration]. *)
Fixpoint first_match (search_text : str) (captions : list str)
    (indices : list Z) : exn + option Z :=
  match indices with
  | [] => inr None
  | i :: rest =>
      match getitem captions i with
      | None => inl IndexError
      | Some caption =>
          if contains search_text caption then inr (Some i)
          else first_match search_text captions rest
      end
  end.

(** The body of [find_next_internal], with the handler of [StopIteration]
    passed in. *)
Definition find_pass (start_index end_index : Z) (reverse : bool)
    (on_stop_iteration : M unit) : M unit :=
  captions ← load_all_captions;
  if bool_decide (start_index >= end_index) then raise ValueError
  else
    self ← get;
    let indices := range start_index end_index in
    let indices := if reverse then rev indices else indices in
    match first_match (search_text self) captions indices with
    | inl e => raise e
    | inr (Some next_index) => go_to_image next_index
    | inr None => on_stop_iteration
    end.

Equations find_next_internal (start_index end_index : Z) (reverse wrap : bool)
  : M unit by wf (Nat.b2n wrap) lt :=
find_next_internal start_index end_index reverse true :=
  find_pass start_index end_index reverse
    (if reverse
     then self ← get;
          find_next_internal end_index (Z.of_nat (length (images self))) true false
     else find_next_internal 0 start_index false false);
find_next_internal start_index end_index reverse false :=
  find_pass start_index end_index reverse (mret tt).

(** With no search text [find_next] and [find_prev] open the dialog that
    asks for one and search again with the answer; the dialog is not
    modelled and the branch ends there. *)
Definition find_next : M unit :=
  self ← get;
  if bool_decide (length (images self) = 0%nat) then mret tt
  else if bool_decide (length (search_text self) = 0%nat) then mret tt
  else
    let len := Z.of_nat (length (images self)) in
    let start_index := (index self + 1) `mod` len in
    let end_index := len in
    find_next_internal start_index end_index false true.

Definition find_prev : M unit :=
  self ← get;
  if bool_decide (length (images self) = 0%nat) then mret tt
  else if bool_decide (length (search_text self) = 0%nat) then mret tt
  else
    let len := Z.of_nat (length (images self)) in
    let end_index := (index self + len - 1) `mod` len in
    let start_index := 0 in
    find_next_internal start_index end_index true true.

(** [open_folder], given the answer [dir] of the folder dialog and what
    [os.walk(dir)] yields: the directories with the names of their files. *)
Definition open_folder (lower : str → str) (dir : str)
    (walk : list (str * list str)) : M unit :=
  if bool_decide (dir = []) then mret tt
  else
    self ← get;
    let self := with_images [] (with_base_path dir self) in
    let found :=
      foldl (λ acc entry,
               let '(directory, filenames) := entry in
               let image_filenames :=
                 filter (λ f, (splitext f).2 ∈ IMG_EXT) filenames in
               acc ++ ((λ filename, CaptionedImage.new (mkPath directory filename))
                         <$> image_filenames))
            (images self) walk in
    put (with_images (CaptionedImage.sort lower found) self);;
    update_ui.

End ImageView.

(** ** The key bindings of the main block

    The events that [root.bind] ties to the methods of the view, with what
    the folder dialog answers and what [os.walk] yields for [Control-o].
    [Typed text] stands for the key strokes that the widget takes, after
    which it holds [text]. [Escape] ends the program, and [Control-f] opens
    the find dialog, which is not modelled. *)
Inductive KeyEvent :=
  | Control_o (dir : str) (walk : list (str * list str))
  | Control_g
  | Control_h
  | Prior
  | Next
  | Shift_Prior
  | Shift_Next
  | Shift_Home
  | Shift_End
  | Shift_Delete
  | Command_l
  | Typed (text : str).

Definition handle (lower : str → str) (e : KeyEvent) : ImageView.M unit :=
  match e with
  | Control_o dir walk => ImageView.open_folder lower dir walk
  | Control_g => ImageView.find_next
  | Control_h => ImageView.find_prev
  | Prior => ImageView.prev_image
  | Next => ImageView.next_image
  | Shift_Prior =>
      view ← ImageView.get; ImageView.go_to_image (ImageView.index view - 10)
  | Shift_Next =>
      view ← ImageView.get; ImageView.go_to_image (ImageView.index view + 10)
  | Shift_Home => ImageView.go_to_image 0
  | Shift_End =>
      view ← ImageView.get;
      ImageView.go_to_image (Z.of_nat (length (ImageView.images view)) - 1)
  | Shift_Delete => ImageView.delete_image
  | Command_l => ImageView.shuffle_images
  | Typed text =>
      view ← ImageView.get; ImageView.put (ImageView.with_caption_field text view)
  end.

(** [root.mainloop()] on a sequence of key events: Tk reports an exception
    that a handler raises and goes on to the next event, with the object as
    the handler left it. *)
Definition mainloop (lower : str → str) (events : list KeyEvent)
    (view : ImageView.t) : ImageView.t :=
  foldl (λ v e, ImageView.state_of (handle lower e v)) view events.


(** ** Notions used by the statements

    What the relocation inside [delete_image] does to the disk: the folder
    [trash_path] is made if it is missing, the image file moves into it, and
    so does the sidecar file if there is one. [None] when a rename fails. *)
Definition relocate (img : CaptionedImage.t) (trash_path : str) (d : Disk)
  : option Disk :=
  let d := if dir_exists trash_path d then d else mkdir trash_path d in
  d ← rename (CaptionedImage.path img)
             (mkPath trash_path (name (CaptionedImage.path img))) d;
  let caption_path := CaptionedImage.caption_path img in
  if file_exists caption_path d
  then rename caption_path (mkPath trash_path (name caption_path)) d
  else Some d.

(** the writes among the effects of a journal *)
Definition wrote (e : ImageView.Effect) : bool :=
  match e with
  | ImageView.Wrote _ _ => true
  | _ => false
  end.

(** The widget is armed for [time]: the clock shows [time] and the only
    pending timer is the one that [afterid] names, due [delay] later. *)
Definition armed (time : Z) (w : SpellcheckText.t) : Prop :=
  SpellcheckText.now w = time
  ∧ ∃ id, SpellcheckText.afterid w = Some id
          ∧ SpellcheckText.timers w = [(id, time + SpellcheckText.delay)].


(** No image of the list stands before one that is smaller than it under
    [__lt__]. *)
Fixpoint ordered (lower : str → str) (l : list CaptionedImage.t) : Prop :=
  match l with
  | [] => True
  | a :: l' => Forall (λ b, CaptionedImage.lt lower b a = false) l' ∧ ordered lower l'
  end.

(** The cursor names an image whenever there is one. *)
Definition cursor_ok (self : ImageView.t) : Prop :=
  ImageView.images self = []
  ∨ 0 ≤ ImageView.index self < Z.of_nat (length (ImageView.images self)).

(** The events come in the order of time, none before [prev], and none at
    the very moment at which the timer of the event before it falls due. *)
Fixpoint apart (prev : Z) (events : list Z) : Prop :=
  match events with
  | [] => True
  | time :: rest =>
      prev ≤ time ∧ time ≠ prev + SpellcheckText.delay ∧ apart time rest
  end.

(** The ends of the pauses of a sequence of events that follows an event at
    [prev]: [delay] after every event that the next one does not follow
    within the delay, and after the last one. *)
Fixpoint pauses (prev : Z) (events : list Z) : list Z :=
  match events with
  | [] => [prev + SpellcheckText.delay]
  | time :: rest =>
      (if prev + SpellcheckText.delay <=? time
       then [prev + SpellcheckText.delay] else [])
      ++ pauses time rest
  end.


(** the captions as [load_all_captions] yields them *)
Definition captions (self : ImageView.t) : list str :=
  (λ i, CaptionedImage.read_caption i (ImageView.disk self))
    <$> ImageView.images self.

(** the caption of image [i] contains the search text *)
Definition hit (self : ImageView.t) (i : Z) : bool :=
  match getitem (captions self) i with
  | Some caption => contains (ImageView.search_text self) caption
  | None => false
  end.

(** The orders of search as the specification words them. Forward from
    cursor [c] in a collection of [n] images: [c+1 .. n-1] upwards, then
    [0 .. c]. Backward: [c-1 .. 0] downwards, then [n-1 .. c]. *)
Definition forward_order (c n : Z) : list Z :=
  range (c + 1) n ++ range 0 (c + 1).

Definition backward_order (c n : Z) : list Z :=
  rev (range 0 c) ++ rev (range c n).

(** ** A collection to run the methods on

    Three images in one folder with the captions "red fox", "blue sky" and
    "red fox jumps"; the cursor is on the first one and the widget shows its
    caption. *)
Definition pics : str := py "/pics".

Definition in_pics (n : string) : Path := mkPath pics (py n).

Definition example_disk : Disk :=
  mkDisk
    (<[in_pics "a.txt" := py "red fox"]>
       (<[in_pics "b.txt" := py "blue sky"]>
          (<[in_pics "c.txt" := py "red fox jumps"]>
             (<[in_pics "a.jpg" := py "A"]>
                (<[in_pics "b.jpg" := py "B"]>
                   (<[in_pics "c.jpg" := py "C"]> ∅))))))
    {[ pics ]}.

Definition example_view : ImageView.t :=
  ImageView.mk (Some pics)
    (CaptionedImage.new <$> [in_pics "a.jpg"; in_pics "b.jpg"; in_pics "c.jpg"])
    0 [] (py "red fox") example_disk [].

Arguments CaptionedImage.caption_path : simpl never.
Arguments py : simpl never.


(** * Properties *)

Import ImageView.

(** ** The model on small inputs *)

Example splitext_jpg : splitext (py "a.jpg") = (py "a", py ".jpg").
Proof. reflexivity. Qed.

Example splitext_hidden : splitext (py "sub/.bashrc") = (py "sub/.bashrc", []).
Proof. reflexivity. Qed.

Example stem_of_image : stem (in_pics "c.final.png") = py "c.final".
Proof. reflexivity. Qed.

Example normalize_edit :
  normalize (py "  red fox" ++ [CR; LF] ++ py " runs " ++ [LF]) = py "red fox runs".
Proof. reflexivity. Qed.

Example sort_case_insensitive :
  CaptionedImage.path <$>
    CaptionedImage.sort ascii_lower
      (CaptionedImage.new <$> [in_pics "B.png"; in_pics "a.png"; in_pics "C.png"])
  = [in_pics "a.png"; in_pics "B.png"; in_pics "C.png"].
Proof. reflexivity. Qed.

Example set_index_wraps :
  index (state_of (set_index (-1) example_view)) = 2.
Proof. reflexivity. Qed.


(** ** Indexing *)

Lemma norm_index_lt (len : nat) (i : Z) (k : nat) :
  norm_index len i = Some k → (k < len)%nat.
Proof.
  unfold norm_index. repeat case_bool_decide; intros [= <-]; lia.
Qed.

Lemma norm_index_nonneg (len : nat) (i : Z) :
  0 ≤ i < Z.of_nat len → norm_index len i = Some (Z.to_nat i).
Proof. intros H. unfold norm_index. by rewrite bool_decide_eq_true_2. Qed.

Lemma getitem_nonneg {A} (l : list A) (i : Z) :
  0 ≤ i < Z.of_nat (length l) → getitem l i = l !! Z.to_nat i.
Proof. intros H. unfold getitem. by rewrite norm_index_nonneg. Qed.

Lemma getitem_is_Some {A} (l : list A) (i : Z) :
  0 ≤ i < Z.of_nat (length l) → is_Some (getitem l i).
Proof.
  intros H. rewrite getitem_nonneg by done. apply lookup_lt_is_Some. lia.
Qed.

Lemma getitem_Some_length {A} (l : list A) (i : Z) (x : A) :
  getitem l i = Some x → length l ≠ 0%nat.
Proof.
  unfold getitem. destruct (norm_index _ _) as [k|] eqn:E; [|done].
  apply norm_index_lt in E. lia.
Qed.

Lemma mod_length_bounds {A} (l : list A) (i : Z) :
  length l ≠ 0%nat →
  0 ≤ i `mod` Z.of_nat (length l) < Z.of_nat (length l).
Proof. intros H. apply Z.mod_pos_bound. lia. Qed.

(** ** Running the methods *)

Ltac run :=
  repeat (unfold mbind, M_bind, mret, M_ret, get, put, raise; simpl).

Lemma set_index_run (i : Z) (self : t) :
  length (images self) ≠ 0%nat →
  set_index i self
  = Ok tt (with_index (i `mod` Z.of_nat (length (images self))) self).
Proof.
  intros H. unfold set_index. run. by rewrite bool_decide_eq_false_2.
Qed.

Lemma update_ui_run (self : t) (img : CaptionedImage.t) :
  getitem (images self) (index self) = Some img →
  update_ui self
  = Ok tt (with_caption_field (CaptionedImage.read_caption img (disk self)) self).
Proof.
  intros H. unfold update_ui. run.
  rewrite bool_decide_eq_false_2 by (eapply getitem_Some_length; eauto).
  by rewrite H.
Qed.

Lemma store_caption_run (self : t) (img : CaptionedImage.t) :
  getitem (images self) (index self) = Some img →
  store_caption self
  = Ok tt (record (Wrote (CaptionedImage.caption_path img)
                         (normalize (caption_field_get self)))
             (with_disk (CaptionedImage.write_caption img
                           (normalize (caption_field_get self)) (disk self))
                        self)).
Proof. intros H. unfold store_caption. run. by rewrite H. Qed.

Lemma go_to_image_run (i : Z) (self : t) (img img' : CaptionedImage.t) :
  getitem (images self) (index self) = Some img →
  getitem (images self) (i `mod` Z.of_nat (length (images self))) = Some img' →
  let txt := normalize (caption_field_get self) in
  let d := CaptionedImage.write_caption img txt (disk self) in
  go_to_image i self
  = Ok tt (with_caption_field (CaptionedImage.read_caption img' d)
             (with_index (i `mod` Z.of_nat (length (images self)))
                (record (Wrote (CaptionedImage.caption_path img) txt)
                   (with_disk d self)))).
Proof.
  intros H H' txt d. unfold go_to_image.
  unfold mbind at 1. unfold M_bind, get.
  rewrite bool_decide_eq_false_2 by (eapply getitem_Some_length; eauto).
  unfold mbind at 1. unfold M_bind. rewrite (store_caption_run _ _ H).
  unfold mbind at 1. unfold M_bind.
  rewrite set_index_run by (simpl; eapply getitem_Some_length; eauto).
  simpl. erewrite update_ui_run; [done|]. simpl. exact H'.
Qed.

Lemma go_to_image_IndexError (i : Z) (self : t) :
  images self ≠ [] →
  getitem (images self) (index self) = None →
  go_to_image i self = Raise IndexError self.
Proof.
  intros Hne H. unfold go_to_image. run.
  rewrite bool_decide_eq_false_2 by (destruct (images self); done).
  unfold store_caption. run. by rewrite H.
Qed.

(** ** Navigation *)

(** C1. In a collection that is not empty [go_to_image] writes the
    normalized text of the widget to the sidecar file of the current image
    and only then assigns the cursor: the journal gains the write followed
    by the assignment, and afterwards the sidecar file of the image that was
    left holds that text. When the cursor names no image the method stops in
    [store_caption] with [IndexError] before the cursor is touched. *)
Theorem go_to_image_flushes_before_moving (i : Z) (self : t) :
  images self ≠ [] →
  let r := go_to_image i self in
  match getitem (images self) (index self) with
  | Some img =>
      let txt := normalize (caption_field_get self) in
      let j := i `mod` Z.of_nat (length (images self)) in
      raised r = None
      ∧ journal (state_of r)
        = journal self ++ [Wrote (CaptionedImage.caption_path img) txt; Cursor j]
      ∧ index (state_of r) = j
      ∧ files (disk (state_of r)) !! CaptionedImage.caption_path img = Some txt
      ∧ images (state_of r) = images self
  | None => r = Raise IndexError self
  end.
Proof.
  intros Hne r. subst r.
  destruct (getitem (images self) (index self)) as [img|] eqn:Hcur.
  - pose proof (getitem_Some_length _ _ _ Hcur) as Hlen.
    destruct (getitem_is_Some (images self)
                (i `mod` Z.of_nat (length (images self)))) as [img' Himg'].
    { by apply mod_length_bounds. }
    rewrite (go_to_image_run _ _ _ _ Hcur Himg'). simpl.
    repeat split; try done.
    + by rewrite <- app_assoc.
    + apply lookup_insert_eq.
  - by apply go_to_image_IndexError.
Qed.

Lemma go_to_image_flushes_before_moving_witness :
  let self := with_caption_field (py "  red fox runs ") example_view in
  images self ≠ [] ∧
  let r := go_to_image 1 self in
  raised r = None
  ∧ journal (state_of r) = [Wrote (in_pics "a.txt") (py "red fox runs"); Cursor 1]
  ∧ index (state_of r) = 1
  ∧ files (disk (state_of r)) !! in_pics "a.txt" = Some (py "red fox runs")
  ∧ images (state_of r) = images self.
Proof.
  split; [discriminate|].
  exact (go_to_image_flushes_before_moving 1
           (with_caption_field (py "  red fox runs ") example_view)
           ltac:(discriminate)).
Defined.

(** ** The caption store *)

Lemma lstrip_spec (s : str) :
  ∃ pre, s = pre ++ lstrip s
         ∧ Forall (λ c, isspace c = true) pre
         ∧ from_option isspace false (head (lstrip s)) = false.
Proof.
  induction s as [|c s IH]; simpl.
  - by exists [].
  - destruct (isspace c) eqn:E.
    + destruct IH as (pre & Hs & Hpre & Hhd).
      exists (c :: pre). simpl. split; [by f_equal|]. split; [by constructor|done].
    + exists []. simpl. by rewrite E.
Qed.

Lemma rstrip_spec (s : str) :
  ∃ post, s = rstrip s ++ post
          ∧ Forall (λ c, isspace c = true) post
          ∧ from_option isspace false (last (rstrip s)) = false.
Proof.
  unfold rstrip.
  destruct (lstrip_spec (reverse s)) as (pre & Hs & Hpre & Hhd).
  exists (reverse pre). split; [|split].
  - rewrite <- reverse_app, <- Hs. by rewrite reverse_involutive.
  - by apply Forall_reverse.
  - by rewrite last_reverse.
Qed.

Lemma strip_spec (s : str) :
  ∃ pre post,
    s = pre ++ strip s ++ post
    ∧ Forall (λ c, isspace c = true) pre
    ∧ Forall (λ c, isspace c = true) post
    ∧ from_option isspace false (head (strip s)) = false
    ∧ from_option isspace false (last (strip s)) = false.
Proof.
  unfold strip.
  destruct (lstrip_spec s) as (pre & Hs & Hpre & Hhd).
  destruct (rstrip_spec (lstrip s)) as (post & Hu & Hpost & Hlast).
  exists pre, post. repeat split; try done.
  - by rewrite <- Hu.
  - destruct (rstrip (lstrip s)) as [|c u] eqn:E; [done|].
    rewrite Hu in Hhd. exact Hhd.
Qed.

Lemma remove_char_not_elem (c : N) (s : str) : c ∉ remove_char c s.
Proof. unfold remove_char. rewrite list_elem_of_filter. by intros [H _]. Qed.

Lemma remove_chars_filter (t : str) :
  remove_char LF (remove_char CR t) = filter (λ c, c ≠ CR ∧ c ≠ LF) t.
Proof.
  unfold remove_char. induction t as [|c t IH]; [done|].
  rewrite !filter_cons. destruct (decide (c ≠ CR)) as [Hcr|Hcr].
  - rewrite filter_cons. destruct (decide (c ≠ LF)) as [Hlf|Hlf].
    + rewrite decide_True by done. by f_equal.
    + rewrite decide_False by (by intros [_ ?]). done.
  - rewrite decide_False by (by intros [? _]). done.
Qed.

Lemma normalize_spec (t : str) :
  ∃ pre post,
    filter (λ c, c ≠ CR ∧ c ≠ LF) t = pre ++ normalize t ++ post
    ∧ Forall (λ c, isspace c = true) pre
    ∧ Forall (λ c, isspace c = true) post
    ∧ from_option isspace false (head (normalize t)) = false
    ∧ from_option isspace false (last (normalize t)) = false.
Proof. rewrite <- remove_chars_filter. apply strip_spec. Qed.

Lemma normalize_no_newline (t : str) :
  (CR ∉ normalize t) ∧ (LF ∉ normalize t).
Proof.
  destruct (normalize_spec t) as (pre & post & H & _).
  assert (Hsub : ∀ c, c ∈ normalize t → c ≠ CR ∧ c ≠ LF).
  { intros c Hc.
    assert (Hin : c ∈ filter (λ c, c ≠ CR ∧ c ≠ LF) t).
    { rewrite H. set_solver. }
    apply list_elem_of_filter in Hin as [? _]. done. }
  split; intros Hc; apply Hsub in Hc; by destruct Hc.
Qed.

(** C8. Writing the normalized text of any [t] to the sidecar file of an
    image and reading the caption back gives that text; [read_caption]
    returns what the sidecar file holds, and the empty string when there is
    no such file; [normalize] drops every carriage return and line feed and
    then the white space at both ends, and nothing else. *)
Theorem caption_round_trip (e : CaptionedImage.t) (t : str) (d : Disk) :
  CaptionedImage.read_caption e
    (CaptionedImage.write_caption e (normalize t) d) = normalize t
  ∧ CaptionedImage.read_caption e d
    = default [] (files d !! CaptionedImage.caption_path e)
  ∧ ((CR ∉ normalize t) ∧ (LF ∉ normalize t))
  ∧ ∃ pre post,
      filter (λ c, c ≠ CR ∧ c ≠ LF) t = pre ++ normalize t ++ post
      ∧ Forall (λ c, isspace c = true) pre
      ∧ Forall (λ c, isspace c = true) post
      ∧ from_option isspace false (head (normalize t)) = false
      ∧ from_option isspace false (last (normalize t)) = false.
Proof.
  split; [|split; [|split]].
  - unfold CaptionedImage.read_caption, CaptionedImage.write_caption. simpl.
    by rewrite lookup_insert_eq.
  - unfold CaptionedImage.read_caption.
    by destruct (files d !! CaptionedImage.caption_path e).
  - apply normalize_no_newline.
  - apply normalize_spec.
Qed.

(** ** Deletion *)

Lemma rename_file_run (src dst : Path) (self : t) (d : Disk) :
  rename src dst (disk self) = Some d →
  rename_file src dst self = Ok tt (record (Moved src dst) (with_disk d self)).
Proof. intros H. unfold rename_file. run. by rewrite H. Qed.

(** Up to the removal from the list [delete_image] is the relocation. *)
Lemma delete_image_run (self : t) (img : CaptionedImage.t) (base : str) (d : Disk) :
  getitem (images self) (index self) = Some img →
  base_path self = Some base →
  relocate img (path_join base (py "_deleted")) (disk self) = Some d →
  ∃ self' k,
    norm_index (length (images self)) (index self) = Some k
    ∧ delete_image self
      = (set_index (index self);; update_ui)
          (with_images (delete k (images self)) self')
    ∧ disk self' = d
    ∧ index self' = index self
    ∧ filter wrote (journal self') = filter wrote (journal self).
Proof.
  intros Hcur Hbase Hrel.
  unfold delete_image. run.
  rewrite bool_decide_eq_false_2 by (eapply getitem_Some_length; eauto).
  rewrite Hcur, Hbase.
  unfold relocate in Hrel.
  unfold getitem in Hcur.
  destruct (norm_index _ _) as [k|] eqn:Hk; [|done].
  set (trash := path_join base (py "_deleted")) in *.
  destruct (dir_exists trash (disk self)); simpl in *.
  all: destruct (rename (CaptionedImage.path img) _ _) as [d2|] eqn:Hr1;
    [|done]; simpl in Hrel.
  all: erewrite rename_file_run by (simpl; exact Hr1); simpl.
  all: destruct (file_exists (CaptionedImage.caption_path img) d2) eqn:Hex.
  all: try (erewrite rename_file_run by (simpl; exact Hrel); simpl).
  all: try injection Hrel as ->.
  all: unfold delitem; simpl; rewrite Hk; simpl.
  all: eexists _, k; (split; [done|]); (split; [reflexivity|]); simpl.
  all: repeat split; try done.
  all: by rewrite !filter_app, !app_nil_r.
Qed.

(** What follows the removal: the cursor is taken modulo the new length and
    the widget reloaded; with nothing left the modulo divides by zero. *)
Lemma reindex_run (i : Z) (self : t) :
  let r := (set_index i;; update_ui) self in
  disk (state_of r) = disk self
  ∧ images (state_of r) = images self
  ∧ filter wrote (journal (state_of r)) = filter wrote (journal self)
  ∧ (if bool_decide (length (images self) = 0%nat)
     then r = Raise ZeroDivisionError self
     else raised r = None
          ∧ index (state_of r) = i `mod` Z.of_nat (length (images self))).
Proof.
  simpl. unfold mbind, M_bind.
  case_bool_decide as Hlen.
  - unfold set_index. run. by rewrite bool_decide_eq_true_2.
  - rewrite set_index_run by done.
    destruct (getitem_is_Some (images self)
                (i `mod` Z.of_nat (length (images self)))) as [img' Himg'].
    { by apply mod_length_bounds. }
    erewrite update_ui_run by (simpl; exact Himg'). simpl.
    repeat split; try done.
    by rewrite filter_app, app_nil_r.
Qed.

Lemma relocate_is_Some (img : CaptionedImage.t) (trash : str) (d : Disk) (data : str) :
  files d !! CaptionedImage.path img = Some data →
  is_Some (relocate img trash d).
Proof.
  intros H. unfold relocate, rename.
  assert (Hd : files (if dir_exists trash d then d else mkdir trash d)
               !! CaptionedImage.path img = Some data).
  { by destruct (dir_exists trash d). }
  rewrite Hd. simpl. unfold file_exists. simpl.
  case_bool_decide as Hex; [|done].
  destruct Hex as [c Hc]. rewrite Hc. by eexists.
Qed.

(** The outcome of [delete_image] when the relocation goes through. *)
Lemma delete_image_outcome (self : t) (img : CaptionedImage.t) (base : str) (d : Disk) :
  0 ≤ index self →
  getitem (images self) (index self) = Some img →
  base_path self = Some base →
  relocate img (path_join base (py "_deleted")) (disk self) = Some d →
  let r := delete_image self in
  let l := delete (Z.to_nat (index self)) (images self) in
  disk (state_of r) = d
  ∧ images (state_of r) = l
  ∧ length l = (length (images self) - 1)%nat
  ∧ filter wrote (journal (state_of r)) = filter wrote (journal self)
  ∧ (if bool_decide (length l = 0%nat)
     then raised r = Some ZeroDivisionError
     else raised r = None
          ∧ index (state_of r) = index self `mod` Z.of_nat (length l)).
Proof.
  intros Hnn Hcur Hbase Hrel r l. subst r l.
  destruct (delete_image_run _ _ _ _ Hcur Hbase Hrel)
    as (self' & k & Hk & Hrun & Hd & Hi & Hj).
  assert (Hlt : index self < Z.of_nat (length (images self))).
  { apply norm_index_lt in Hk as Hk'. unfold norm_index in Hk.
    repeat case_bool_decide; try lia; discriminate. }
  rewrite norm_index_nonneg in Hk by lia. injection Hk as <-.
  rewrite Hrun.
  pose proof (reindex_run (index self)
                (with_images (delete (Z.to_nat (index self)) (images self)) self'))
    as (Hd' & Himg' & Hj' & Hres).
  simpl in *. rewrite Hd', Himg', Hj'.
  repeat split; try done.
  - rewrite length_delete; [done|]. apply lookup_lt_is_Some. lia.
  - case_bool_decide; [by rewrite Hres|done].
Qed.

(** C3, as the code has it. With at least two images, the cursor on one of
    them and the image file in place (so that the relocation goes through),
    [delete_image] ends normally, removes exactly the current image, and
    leaves a cursor inside the shorter list: the cursor keeps its value,
    except that from the last position it goes to 0, the first image. *)
Theorem delete_image_shrinks (self : t) (img : CaptionedImage.t) (base data : str) :
  (2 ≤ length (images self))%nat →
  0 ≤ index self < Z.of_nat (length (images self)) →
  images self !! Z.to_nat (index self) = Some img →
  base_path self = Some base →
  files (disk self) !! CaptionedImage.path img = Some data →
  let r := delete_image self in
  raised r = None
  ∧ images (state_of r) = delete (Z.to_nat (index self)) (images self)
  ∧ length (images (state_of r)) = (length (images self) - 1)%nat
  ∧ 0 ≤ index (state_of r) < Z.of_nat (length (images (state_of r)))
  ∧ index (state_of r)
    = if bool_decide (index self = Z.of_nat (length (images self)) - 1)
      then 0 else index self.
Proof.
  intros Hlen Hidx Himg Hbase Hdata r. subst r.
  assert (Hcur : getitem (images self) (index self) = Some img).
  { by rewrite getitem_nonneg. }
  destruct (relocate_is_Some img (path_join base (py "_deleted")) _ _ Hdata)
    as [d Hrel].
  destruct (delete_image_outcome self img base d) as (_ & Hl & Hlen' & _ & Hres);
    try done; [lia|].
  rewrite bool_decide_eq_false_2 in Hres by lia.
  destruct Hres as [Hok Hi]. rewrite Hlen' in Hi. rewrite Hl, Hlen', Hi.
  assert (Hmod : index self `mod` Z.of_nat (length (images self) - 1)
                 = if bool_decide (index self = Z.of_nat (length (images self)) - 1)
                   then 0 else index self).
  { case_bool_decide as Hlast.
    - rewrite Hlast. replace (Z.of_nat (length (images self) - 1))
        with (Z.of_nat (length (images self)) - 1) by lia.
      apply Z_mod_same_full.
    - apply Z.mod_small. lia. }
  rewrite Hmod. repeat split; try done; case_bool_decide; lia.
Qed.

Lemma delete_image_shrinks_witness :
  let self := with_index 2 example_view in
  (2 ≤ length (images self))%nat ∧
  let r := delete_image self in
  raised r = None
  ∧ images (state_of r) = delete (Z.to_nat (index self)) (images self)
  ∧ length (images (state_of r)) = (length (images self) - 1)%nat
  ∧ 0 ≤ index (state_of r) < Z.of_nat (length (images (state_of r)))
  ∧ index (state_of r)
    = if bool_decide (index self = Z.of_nat (length (images self)) - 1)
      then 0 else index self.
Proof.
  split; [simpl; lia|].
  apply (delete_image_shrinks (with_index 2 example_view)
           (CaptionedImage.new (in_pics "c.jpg")) pics (py "C")).
  - simpl; lia.
  - simpl; lia.
  - reflexivity.
  - reflexivity.
  - vm_compute. reflexivity.
Defined.

(** C3 as it is worded fails twice. Deleting the last of three images leaves
    the cursor on the first image and not on the new last one; and deleting
    the only image of a collection ends in [ZeroDivisionError], with the
    image gone from the list. *)
Lemma delete_image_last_goes_to_first :
  (let r := delete_image (with_index 2 example_view) in
   raised r = None
   ∧ length (images (state_of r)) = 2%nat
   ∧ index (state_of r) = 0
   ∧ index (state_of r) ≠ Z.of_nat (length (images (state_of r))) - 1)
  ∧ (let r := delete_image
                (with_images [CaptionedImage.new (in_pics "a.jpg")] example_view) in
     raised r = Some ZeroDivisionError
     ∧ images (state_of r) = []).
Proof. vm_compute. repeat split; congruence. Qed.

(** ** What deletion does to the caption *)

Lemma rename_lookup (src dst p : Path) (d d' : Disk) :
  rename src dst d = Some d' →
  files d' !! p
  = if decide (dst = p) then files d !! src
    else if decide (src = p) then None else files d !! p.
Proof.
  unfold rename. destruct (files d !! src) as [c|] eqn:Hsrc; [|done].
  intros [= <-]. simpl. rewrite lookup_insert. case_decide; [done|].
  by rewrite lookup_delete.
Qed.

Lemma rename_content (src dst p : Path) (d d' : Disk) (x : str) :
  rename src dst d = Some d' →
  files d' !! p = Some x → ∃ p0, files d !! p0 = Some x.
Proof.
  intros Hr. rewrite (rename_lookup _ _ _ _ _ Hr).
  repeat case_decide; [eauto|done|eauto].
Qed.

(** A file in the folder of the image with the name of its sidecar file is
    the image itself exactly when the image is its own sidecar file. *)
Lemma caption_path_name (img : CaptionedImage.t) (dir : str) :
  mkPath dir (name (CaptionedImage.path img)) = CaptionedImage.caption_path img →
  CaptionedImage.caption_path img = CaptionedImage.path img.
Proof.
  unfold CaptionedImage.caption_path, CaptionedImage.base_path.
  destruct (CaptionedImage.path img) as [dir' n]. simpl.
  intros [= -> Hn]. by rewrite <- Hn.
Qed.

(** The relocation puts the text of the sidecar file under the name of that
    file in the trash folder. *)
Lemma relocate_caption (img : CaptionedImage.t) (trash : str) (d d' : Disk) (c : str) :
  files d !! CaptionedImage.caption_path img = Some c →
  relocate img trash d = Some d' →
  files d' !! mkPath trash (name (CaptionedImage.caption_path img)) = Some c.
Proof.
  intros Hc. unfold relocate.
  set (d1 := if dir_exists trash d then d else mkdir trash d).
  assert (Hd1 : files d1 = files d) by (subst d1; by destruct (dir_exists trash d)).
  destruct (rename (CaptionedImage.path img) _ d1) as [d2|] eqn:Hr1; [|done].
  simpl.
  change (stem (CaptionedImage.path img) ++ py ".txt")
    with (name (CaptionedImage.caption_path img)).
  pose proof (rename_lookup _ _ (CaptionedImage.caption_path img) _ _ Hr1) as Hcap.
  rewrite Hd1 in Hcap.
  destruct (decide (CaptionedImage.path img = CaptionedImage.caption_path img))
    as [E2|E2].
  - (* the image is its own sidecar file *)
    assert (Hname : name (CaptionedImage.caption_path img)
                    = name (CaptionedImage.path img)) by (by rewrite <- E2).
    rewrite Hname.
    assert (Htrash : files d2 !! mkPath trash (name (CaptionedImage.path img))
                     = Some c).
    { rewrite (rename_lookup _ _ _ _ _ Hr1), decide_True, Hd1, E2 by done. done. }
    destruct (file_exists _ d2) eqn:Hex.
    + intros Hr2. rewrite (rename_lookup _ _ _ _ _ Hr2), decide_True by done.
      apply bool_decide_eq_true in Hex. rewrite Hcap in Hex. rewrite Hcap.
      destruct (decide (_ = _)) as [E1|E1]; [by rewrite E2|].
      by destruct Hex.
    + by intros [= <-].
  - (* the sidecar file is another file, which the first rename leaves alone *)
    destruct (decide (mkPath trash (name (CaptionedImage.path img))
                      = CaptionedImage.caption_path img)) as [E1|E1].
    { apply caption_path_name in E1. congruence. }
    rewrite Hc in Hcap.
    unfold file_exists. rewrite Hcap, bool_decide_eq_true_2 by eauto.
    intros Hr2. rewrite (rename_lookup _ _ _ _ _ Hr2), decide_True by done.
    done.
Qed.

(** The relocation writes nothing new: whatever a file holds afterwards some
    file held before. *)
Lemma relocate_content (img : CaptionedImage.t) (trash : str) (d d' : Disk)
    (p : Path) (x : str) :
  relocate img trash d = Some d' →
  files d' !! p = Some x → ∃ p0, files d !! p0 = Some x.
Proof.
  unfold relocate.
  set (d1 := if dir_exists trash d then d else mkdir trash d).
  assert (Hd1 : files d1 = files d) by (subst d1; by destruct (dir_exists trash d)).
  destruct (rename (CaptionedImage.path img) _ d1) as [d2|] eqn:Hr1; [|done].
  simpl. rewrite <- Hd1.
  destruct (file_exists _ d2).
  - intros Hr2 Hx. destruct (rename_content _ _ _ _ _ _ Hr2 Hx) as [p1 Hp1].
    by eapply rename_content.
  - intros [= <-] Hx. by eapply rename_content.
Qed.



(** ** Search *)

Lemma find_app {A} (f : A → bool) (l1 l2 : list A) :
  find f (l1 ++ l2)
  = match find f l1 with
    | Some x => Some x
    | None => find f l2
    end.
Proof.
  induction l1 as [|x l1 IH]; simpl; [done|]. by destruct (f x).
Qed.

Lemma find_none_all {A} (f : A → bool) (l : list A) :
  (∀ x, f x = false) → find f l = None.
Proof.
  intros H. induction l as [|x l IH]; simpl; [done|]. by rewrite H.
Qed.

Lemma load_all_captions_run (self : t) :
  load_all_captions self = Ok (captions self) self.
Proof. reflexivity. Qed.

Lemma first_match_find (q : str) (caps : list str) (idxs : list Z) :
  Forall (λ i, 0 ≤ i < Z.of_nat (length caps)) idxs →
  first_match q caps idxs
  = inr (find (λ i, match getitem caps i with
                    | Some caption => contains q caption
                    | None => false
                    end) idxs).
Proof.
  induction 1 as [|i idxs Hi _ IH]; simpl; [done|].
  destruct (getitem_is_Some caps i Hi) as [c Hc]. rewrite Hc.
  by destruct (contains q c).
Qed.

Lemma length_captions (self : t) : length (captions self) = length (images self).
Proof. unfold captions. by rewrite length_fmap. Qed.

Lemma find_pass_run (start_index end_index : Z) (reverse : bool) (k : M unit)
    (self : t) :
  0 ≤ start_index < end_index →
  end_index ≤ Z.of_nat (length (images self)) →
  find_pass start_index end_index reverse k self
  = match find (hit self)
            (if reverse then rev (range start_index end_index)
             else range start_index end_index) with
    | Some next_index => go_to_image next_index self
    | None => k self
    end.
Proof.
  intros Hse Hlen. unfold find_pass.
  unfold mbind at 1. unfold M_bind. rewrite load_all_captions_run.
  rewrite bool_decide_eq_false_2 by lia.
  unfold mbind, M_bind, get.
  rewrite first_match_find.
  - fold (hit self). by destruct (find _ _).
  - rewrite length_captions.
    assert (Hr : Forall (λ i, 0 ≤ i < Z.of_nat (length (images self)))
                        (range start_index end_index)).
    { unfold range. apply Forall_seqZ. intros; lia. }
    destruct reverse; [by apply Forall_rev|done].
Qed.

Lemma find_pass_ValueError (start_index end_index : Z) (reverse : bool)
    (k : M unit) (self : t) :
  start_index >= end_index →
  find_pass start_index end_index reverse k self = Raise ValueError self.
Proof.
  intros H. unfold find_pass.
  unfold mbind at 1. unfold M_bind. rewrite load_all_captions_run.
  by rewrite bool_decide_eq_true_2.
Qed.

Lemma find_next_internal_ValueError (start_index end_index : Z)
    (reverse wrap : bool) (self : t) :
  start_index >= end_index →
  find_next_internal start_index end_index reverse wrap self
  = Raise ValueError self.
Proof.
  intros H. destruct wrap.
  - rewrite find_next_internal_equation_1. by apply find_pass_ValueError.
  - rewrite find_next_internal_equation_2. by apply find_pass_ValueError.
Qed.

(** [find_next] from a cursor before the last image: the images after the
    cursor, then those up to the cursor. *)
Lemma find_next_run (self : t) :
  0 ≤ index self < Z.of_nat (length (images self)) - 1 →
  search_text self ≠ [] →
  find_next self
  = match find (hit self)
            (forward_order (index self) (Z.of_nat (length (images self)))) with
    | Some j => go_to_image j self
    | None => Ok tt self
    end.
Proof.
  intros Hidx Hq. unfold find_next. unfold mbind at 1. unfold M_bind, get.
  rewrite bool_decide_eq_false_2 by lia.
  rewrite bool_decide_eq_false_2 by (destruct (search_text self); done).
  simpl. rewrite Z.mod_small by lia.
  rewrite find_next_internal_equation_1, find_pass_run by lia.
  unfold forward_order. rewrite find_app.
  destruct (find _ (range (index self + 1) _)); [done|].
  rewrite find_next_internal_equation_2, find_pass_run by lia.
  by destruct (find _ _).
Qed.

(** [find_next] from the last image: one pass over all images, and after a
    pass without a match the second call gets an empty range. *)
Lemma find_next_run_last (self : t) :
  0 ≤ index self →
  index self = Z.of_nat (length (images self)) - 1 →
  search_text self ≠ [] →
  find_next self
  = match find (hit self)
            (forward_order (index self) (Z.of_nat (length (images self)))) with
    | Some j => go_to_image j self
    | None => Raise ValueError self
    end.
Proof.
  intros Hnn Hidx Hq. unfold find_next. unfold mbind at 1. unfold M_bind, get.
  rewrite bool_decide_eq_false_2 by lia.
  rewrite bool_decide_eq_false_2 by (destruct (search_text self); done).
  simpl. unfold forward_order. rewrite Hidx.
  replace (Z.of_nat (length (images self)) - 1 + 1)
    with (Z.of_nat (length (images self))) by lia.
  rewrite Z_mod_same_full.
  rewrite find_next_internal_equation_1, find_pass_run by lia.
  replace (range (Z.of_nat (length (images self))) (Z.of_nat (length (images self))))
    with (@nil Z) by (unfold range; by rewrite Z.sub_diag).
  simpl. destruct (find _ _); [done|].
  by apply find_next_internal_ValueError.
Qed.

(** [find_prev]: the range of the first pass ends before the image in front
    of the cursor, so that image comes last, in the second pass; and when
    the cursor is on the second image (or on the only one) the range of the
    first pass is empty. *)
Lemma find_prev_run (self : t) :
  0 ≤ index self < Z.of_nat (length (images self)) →
  search_text self ≠ [] →
  let n := Z.of_nat (length (images self)) in
  let e := (index self + n - 1) `mod` n in
  find_prev self
  = if bool_decide (e = 0) then Raise ValueError self
    else match find (hit self) (rev (range 0 e) ++ rev (range e n)) with
         | Some j => go_to_image j self
         | None => Ok tt self
         end.
Proof.
  intros Hidx Hq n e. unfold find_prev. unfold mbind at 1. unfold M_bind, get.
  rewrite bool_decide_eq_false_2 by lia.
  rewrite bool_decide_eq_false_2 by (destruct (search_text self); done).
  simpl. fold n. fold e.
  assert (He : 0 ≤ e < n) by (apply Z.mod_pos_bound; lia).
  case_bool_decide as He0.
  - apply find_next_internal_ValueError. lia.
  - rewrite find_next_internal_equation_1, find_pass_run by lia.
    rewrite find_app. destruct (find _ (rev (range 0 e))); [done|].
    unfold mbind, M_bind, get. fold n.
    rewrite find_next_internal_equation_2, find_pass_run by lia.
    by destruct (find _ _).
Qed.

Lemma startswith_spec (q s : str) :
  startswith q s = true ↔ ∃ post, s = q ++ post.
Proof.
  revert s. induction q as [|c q IH]; intros s; simpl.
  - split; [eauto|done].
  - destruct s as [|d s]; [split; [done|by intros [? ?]]|].
    rewrite andb_true_iff, N.eqb_eq, IH. split.
    + intros [-> [post ->]]. eauto.
    + intros [post [= -> ->]]. eauto.
Qed.

(** [q in s] holds exactly when [q] is a run of consecutive code points of
    [s], compared as they are. *)
Lemma contains_spec (q s : str) :
  contains q s = true ↔ ∃ pre post, s = pre ++ q ++ post.
Proof.
  induction s as [|d s IH].
  - simpl. rewrite orb_false_r, startswith_spec. split.
    + intros [post H]. by exists [], post.
    + intros (pre & post & H). destruct pre; [by exists post|done].
  - cbn [contains]. rewrite orb_true_iff, startswith_spec, IH. split.
    + intros [[post H]|(pre & post & H)].
      * by exists [], post.
      * exists (d :: pre), post. by rewrite H.
    + intros ([|d' pre] & post & H).
      * left. by exists post.
      * right. injection H as -> ->. eauto.
Qed.

Lemma no_hit (self : t) (i : Z) :
  Forall (λ caption, contains (search_text self) caption = false) (captions self) →
  hit self i = false.
Proof.
  intros Hall. unfold hit, getitem.
  destruct (norm_index _ _) as [k|]; [|done]. simpl.
  destruct (captions self !! k) as [c|] eqn:Hc; [|done].
  by eapply Forall_lookup_1 in Hall.
Qed.

Lemma go_to_image_lands (j : Z) (self : t) :
  0 ≤ index self < Z.of_nat (length (images self)) →
  0 ≤ j < Z.of_nat (length (images self)) →
  raised (go_to_image j self) = None ∧ index (state_of (go_to_image j self)) = j.
Proof.
  intros Hidx Hj.
  destruct (getitem_is_Some (images self) (index self) Hidx) as [img Himg].
  destruct (getitem_is_Some (images self)
              (j `mod` Z.of_nat (length (images self)))) as [img' Himg'].
  { apply Z.mod_pos_bound. lia. }
  rewrite (go_to_image_run j self img img') by done. simpl.
  split; [done|]. apply Z.mod_small. lia.
Qed.

Lemma forward_order_bounds (c n j : Z) :
  0 ≤ c < n → In j (forward_order c n) → 0 ≤ j < n.
Proof.
  intros Hc Hin. apply list_elem_of_In in Hin. unfold forward_order, range in Hin.
  rewrite elem_of_app, !elem_of_seqZ in Hin. lia.
Qed.

(** C5. With a search text and the cursor on an image, [find_next] looks at
    the captions in the order [cursor+1 .. length-1], then [0 .. cursor],
    and goes with [go_to_image] to the first one that contains the text,
    which is where the cursor then is; when none does the collection is left
    as it is (from the last image the call then ends in [ValueError], from
    the others it returns). A caption matches exactly when the text is a run
    of consecutive code points of it. On the three captions "red fox",
    "blue sky", "red fox jumps" from cursor 0, searching "red" three times
    lands on 2, 0 and 2, and searching "zzz" then leaves the cursor on 2. *)
Theorem find_next_scans_forward_then_wraps :
  (∀ self : t,
     0 ≤ index self < Z.of_nat (length (images self)) →
     search_text self ≠ [] →
     let n := Z.of_nat (length (images self)) in
     match find (hit self) (forward_order (index self) n) with
     | Some j =>
         find_next self = go_to_image j self
         ∧ raised (find_next self) = None
         ∧ index (state_of (find_next self)) = j
     | None =>
         state_of (find_next self) = self
         ∧ raised (find_next self)
           = if bool_decide (index self = n - 1) then Some ValueError else None
     end)
  ∧ (∀ (self : t) (i : Z),
       hit self i = true
       ↔ ∃ caption pre post,
           getitem (captions self) i = Some caption
           ∧ caption = pre ++ search_text self ++ post)
  ∧ (let s1 := state_of (find_next (with_search_text (py "red") example_view)) in
     let s2 := state_of (find_next s1) in
     let s3 := state_of (find_next s2) in
     let s4 := state_of (find_next (with_search_text (py "zzz") s3)) in
     index s1 = 2 ∧ index s2 = 0 ∧ index s3 = 2 ∧ index s4 = 2
     ∧ captions s4 = [py "red fox"; py "blue sky"; py "red fox jumps"]).
Proof.
  split; [|split].
  - intros self Hidx Hq n. subst n.
    assert (Hrun : find_next self
                   = match find (hit self)
                             (forward_order (index self)
                                (Z.of_nat (length (images self)))) with
                     | Some j => go_to_image j self
                     | None =>
                         if bool_decide
                              (index self = Z.of_nat (length (images self)) - 1)
                         then Raise ValueError self else Ok tt self
                     end).
    { case_bool_decide as Hl.
      - by rewrite find_next_run_last by (done || lia).
      - by rewrite find_next_run by (done || lia). }
    rewrite Hrun.
    destruct (find _ _) as [j|] eqn:Hfind.
    + apply find_some in Hfind as [Hin _].
      apply forward_order_bounds in Hin; [|done].
      destruct (go_to_image_lands j self Hidx Hin) as [Hok Hj]. done.
    + by case_bool_decide.
  - intros self i. unfold hit.
    destruct (getitem (captions self) i) as [c|].
    + rewrite contains_spec. split.
      * intros (pre & post & H). by exists c, pre, post.
      * intros (c' & pre & post & [= <-] & H). eauto.
    + split; [done|]. by intros (c' & pre & post & [=] & H).
  - vm_compute. repeat split; reflexivity.
Qed.

Lemma find_next_scans_forward_then_wraps_witness :
  let self := with_search_text (py "red") example_view in
  (0 ≤ index self < Z.of_nat (length (images self)) ∧ search_text self ≠ [])
  ∧ find_next self = go_to_image 2 self
  ∧ raised (find_next self) = None
  ∧ index (state_of (find_next self)) = 2.
Proof.
  split; [split; [simpl; lia|discriminate]|].
  exact (proj1 find_next_scans_forward_then_wraps
           (with_search_text (py "red") example_view)
           ltac:(simpl; lia) ltac:(discriminate)).
Defined.

(** C6, as the code has it. With a search text that no caption contains:
    [find_next] from any cursor but the last one, and [find_prev] in a
    collection of two or more images from any cursor but 1, return normally
    and leave the object as it is; and [find_next_internal] called with
    [start_index >= end_index] raises [ValueError], by its own check, and
    leaves the object as it is. *)
Theorem find_without_match (self : t) :
  0 ≤ index self < Z.of_nat (length (images self)) →
  search_text self ≠ [] →
  Forall (λ caption, contains (search_text self) caption = false) (captions self) →
  (index self < Z.of_nat (length (images self)) - 1 → find_next self = Ok tt self)
  ∧ (2 ≤ Z.of_nat (length (images self)) → index self ≠ 1 →
     find_prev self = Ok tt self)
  ∧ (∀ start_index end_index reverse wrap,
       start_index >= end_index →
       find_next_internal start_index end_index reverse wrap self
       = Raise ValueError self).
Proof.
  intros Hidx Hq Hnone.
  assert (Hfind : ∀ l, find (hit self) l = None).
  { intros l. apply find_none_all. intros i. by apply no_hit. }
  split; [|split].
  - intros Hlast. rewrite find_next_run by (done || lia). by rewrite Hfind.
  - intros Hlen Hone. rewrite find_prev_run by done. simpl.
    rewrite bool_decide_eq_false_2, Hfind; [done|].
    destruct (decide (index self = 0)) as [H0|H0].
    + rewrite H0. replace (0 + Z.of_nat (length (images self)) - 1)
        with (Z.of_nat (length (images self)) - 1) by lia.
      rewrite Z.mod_small by lia. lia.
    + replace (index self + Z.of_nat (length (images self)) - 1)
        with (index self - 1 + 1 * Z.of_nat (length (images self))) by lia.
      rewrite Z_mod_plus_full, Z.mod_small by lia. lia.
  - intros. by apply find_next_internal_ValueError.
Qed.

Lemma find_without_match_witness :
  let self := with_search_text (py "zzz") example_view in
  (0 ≤ index self < Z.of_nat (length (images self))
   ∧ Forall (λ caption, contains (search_text self) caption = false) (captions self))
  ∧ (index self < Z.of_nat (length (images self)) - 1 → find_next self = Ok tt self)
  ∧ (2 ≤ Z.of_nat (length (images self)) → index self ≠ 1 →
     find_prev self = Ok tt self)
  ∧ (∀ start_index end_index reverse wrap,
       start_index >= end_index →
       find_next_internal start_index end_index reverse wrap self
       = Raise ValueError self).
Proof.
  assert (Hnone : Forall (λ caption, contains (py "zzz") caption = false)
                    [py "red fox"; py "blue sky"; py "red fox jumps"]).
  { repeat constructor. }
  split; [split; [simpl; lia|exact Hnone]|].
  apply (find_without_match (with_search_text (py "zzz") example_view)).
  - simpl; lia.
  - discriminate.
  - exact Hnone.
Defined.

(** C6 as it is worded fails: on the three captions, with a text that none
    of them contains, [find_next] from the last image and [find_prev] from
    the second image end in [ValueError]. *)
Lemma find_without_match_raises :
  let last := with_search_text (py "zzz") (with_index 2 example_view) in
  let second := with_search_text (py "zzz") (with_index 1 example_view) in
  Forall (λ caption, contains (py "zzz") caption = false) (captions last)
  ∧ raised (find_next last) = Some ValueError
  ∧ raised (find_prev second) = Some ValueError.
Proof. split; [repeat constructor|]. vm_compute. by split. Qed.

(** C7 fails on the code. On the three captions "red fox", "blue sky",
    "red fox jumps" with the text "red": from cursor 0 the order of the
    specification ([cursor-1 .. 0], then [length-1 .. cursor]) finds image 2
    first, and [find_prev] stays on image 0, because its first pass runs
    over [range(0, length-1)] backwards and so looks at image 2 last; from
    cursor 1 the order of the specification finds image 0, and [find_prev]
    ends in [ValueError] with the cursor still on 1. *)
Theorem find_prev_looks_at_previous_image_last :
  (let self := with_search_text (py "red") example_view in
   find (hit self) (backward_order (index self) 3) = Some 2
   ∧ raised (find_prev self) = None
   ∧ index (state_of (find_prev self)) = 0)
  ∧ (let self := with_search_text (py "red") (with_index 1 example_view) in
     find (hit self) (backward_order (index self) 3) = Some 0
     ∧ raised (find_prev self) = Some ValueError
     ∧ index (state_of (find_prev self)) = 1).
Proof. vm_compute. repeat split; reflexivity. Qed.

(** ** Opening a folder *)

Lemma rfind_from_spec (c : N) (s : str) (i acc : Z) :
  rfind_from c s i acc = acc
  ∨ (i ≤ rfind_from c s i acc
     ∧ s !! Z.to_nat (rfind_from c s i acc - i) = Some c).
Proof.
  revert i acc. induction s as [|d s IH]; intros i acc; simpl; [by left|].
  destruct (IH (i + 1) (if (d =? c)%N then i else acc)) as [H|[Hle H]].
  - rewrite H. destruct (d =? c)%N eqn:E; [|by left].
    right. split; [lia|]. apply N.eqb_eq in E as ->.
    by rewrite Z.sub_diag.
  - right. split; [lia|].
    replace (Z.to_nat (rfind_from c s (i + 1) (if (d =? c)%N then i else acc) - i))
      with (S (Z.to_nat (rfind_from c s (i + 1) (if (d =? c)%N then i else acc)
                         - (i + 1)))) by lia.
    done.
Qed.

Lemma rfind_spec (c : N) (s : str) :
  rfind c s = -1 ∨ (0 ≤ rfind c s ∧ s !! Z.to_nat (rfind c s) = Some c).
Proof.
  unfold rfind. destruct (rfind_from_spec c s 0 (-1)) as [H|[Hle H]]; [by left|].
  right. split; [done|]. by rewrite Z.sub_0_r in H.
Qed.

(** The extension that [splitext] returns is empty or begins with the dot. *)
Lemma splitext_dot (p : str) :
  (splitext p).2 = [] ∨ ∃ rest, (splitext p).2 = DOT :: rest.
Proof.
  unfold splitext.
  destruct (bool_decide (rfind DOT p > rfind SLASH p) && _) eqn:E; [|by left].
  right. simpl. apply andb_true_iff in E as [Hgt _].
  apply bool_decide_eq_true in Hgt.
  destruct (rfind_spec DOT p) as [H|[Hle H]].
  - destruct (rfind_spec SLASH p) as [H'|[Hle' _]]; lia.
  - exists (drop (S (Z.to_nat (rfind DOT p))) p). by apply drop_S.
Qed.

(** No extension that [splitext] returns is in [IMG_EXT], whose entries
    have no dot. *)
Lemma splitext_not_in_IMG_EXT (f : str) : (splitext f).2 ∉ IMG_EXT.
Proof.
  unfold IMG_EXT. rewrite !elem_of_cons, elem_of_nil.
  destruct (splitext_dot f) as [->|[rest ->]]; intros [H|[H|[H|[]]]];
    discriminate H.
Qed.

Lemma open_folder_found (walk : list (str * list str)) (acc : list CaptionedImage.t) :
  foldl (λ acc entry,
           let '(directory, filenames) := entry in
           let image_filenames :=
             filter (λ f, (splitext f).2 ∈ IMG_EXT) filenames in
           acc ++ ((λ filename, CaptionedImage.new (mkPath directory filename))
                     <$> image_filenames))
        acc walk = acc.
Proof.
  revert acc. induction walk as [|[directory filenames] walk IH]; intros acc;
    simpl; [done|].
  assert (Hnone : filter (λ f, (splitext f).2 ∈ IMG_EXT) filenames = []).
  { induction filenames as [|f fs IHf]; [done|].
    rewrite filter_cons. case_decide as Hin; [|done].
    by apply splitext_not_in_IMG_EXT in Hin. }
  rewrite Hnone. simpl. rewrite app_nil_r. apply IH.
Qed.

(** Whatever the folder holds, [open_folder] ends with an empty list of
    images, in the branch of [update_ui] for an empty list, and with the
    cursor it started with. *)
Lemma open_folder_run (lower : str → str) (dir : str)
    (walk : list (str * list str)) (self : t) :
  dir ≠ [] →
  open_folder lower dir walk self
  = Raise AttributeError (with_images [] (with_base_path dir self)).
Proof.
  intros Hdir. unfold open_folder.
  rewrite bool_decide_eq_false_2 by done.
  unfold mbind at 1. unfold M_bind, get.
  cbn [images with_images]. rewrite open_folder_found. reflexivity.
Qed.

Lemma open_folder_index (lower : str → str) (dir : str)
    (walk : list (str * list str)) (self : t) :
  index (state_of (open_folder lower dir walk self)) = index self.
Proof.
  destruct (decide (dir = [])) as [->|Hdir]; [done|].
  by rewrite open_folder_run.
Qed.


(** C4 fails on the code. [os.path.splitext] returns the extension with its
    dot, [".jpg"], and [IMG_EXT] lists the extensions without it, so the
    test [splitext(f)[1] in IMG_EXT] accepts no file: a folder with
    [a.jpg], [B.PNG] and [notes.txt] is loaded as an empty collection, and
    [update_ui] then stops in its branch for an empty collection. *)
Theorem open_folder_accepts_no_file :
  let walk := [(pics, [py "a.jpg"; py "B.PNG"; py "notes.txt"])] in
  let r := open_folder ascii_lower pics walk (init example_disk) in
  (splitext (py "a.jpg")).2 = py ".jpg"
  ∧ (py ".jpg" ∉ IMG_EXT)
  ∧ images (state_of r) = []
  ∧ raised r = Some AttributeError.
Proof.
  intros walk r. subst r.
  rewrite open_folder_run by discriminate.
  split; [reflexivity|]. split; [|done].
  change (py ".jpg") with (splitext (py "a.jpg")).2.
  apply splitext_not_in_IMG_EXT.
Qed.

(** C2 fails on the code. [open_folder] does not assign [self.index]: from a
    collection of three images with the cursor on the last one, opening a
    folder leaves the cursor at 2 and not at 0. *)
Theorem open_folder_keeps_cursor :
  let self := with_index 2 example_view in
  let walk := [(pics, [py "a.jpg"])] in
  let r := open_folder ascii_lower pics walk self in
  index self = 2
  ∧ index (state_of r) = 2
  ∧ images (state_of r) = [].
Proof.
  intros self walk r. subst r.
  by rewrite open_folder_run by discriminate.
Qed.

(** ** The debounce of the spell check *)

Section Debounce.
Import SpellcheckText.

Lemma advance_armed (time time' : Z) (w : SpellcheckText.t) :
  armed time w → time ≤ time' < time + delay →
  advance time' w
  = SpellcheckText.mk time' (afterid w) (timers w) (next_id w) (checked w).
Proof.
  destruct w as [nw aid tms nid chk].
  intros (Hnow & id & Hid & Htm) Hlt. simpl in *. subst nw aid tms.
  unfold advance. simpl. unfold next_due. simpl.
  rewrite (proj2 (Z.leb_gt _ _)) by lia. simpl.
  f_equal. lia.
Qed.

Lemma on_modify_armed (time : Z) (w : SpellcheckText.t) :
  (∃ id, afterid w = Some id ∧ ∃ due, timers w = [(id, due)]) ∨
  (afterid w = None ∧ timers w = []) →
  now w = time →
  armed time (on_modify w) ∧ checked (on_modify w) = checked w.
Proof.
  intros [(id & Hid & due & Htm)|[Hid Htm]] Hnow; unfold on_modify, armed;
    rewrite Hid; simpl; rewrite Htm, Hnow; simpl.
  - rewrite filter_cons, decide_False by (simpl; intros H; by apply H).
    rewrite filter_nil. simpl. eauto.
  - eauto.
Qed.

Lemma modified_at_armed (time time' : Z) (w : SpellcheckText.t) :
  armed time w → time ≤ time' < time + delay →
  armed time' (modified_at time' w)
  ∧ checked (modified_at time' w) = checked w.
Proof.
  intros Harm Hlt. unfold modified_at. rewrite (advance_armed time) by done.
  destruct Harm as (Hnow & id & Hid & Htm).
  destruct (on_modify_armed time'
              (SpellcheckText.mk time' (afterid w) (timers w) (next_id w)
                 (checked w))) as [H1 H2]; [left; simpl; eauto|done|by split].
Qed.

Lemma last_cons (l : list Z) (a d : Z) : List.last (a :: l) d = List.last l a.
Proof.
  revert a d. induction l as [|b l IH]; intros a d; [done|].
  change (List.last (a :: b :: l) d) with (List.last (b :: l) d).
  by rewrite (IH b d), (IH b a).
Qed.

Lemma run_armed (rest : list Z) (time : Z) (w : SpellcheckText.t) :
  armed time w → within_window time rest →
  armed (List.last rest time) (run rest w)
  ∧ checked (run rest w) = checked w.
Proof.
  revert time w. induction rest as [|time' rest IH]; intros time w Harm Hwin.
  - done.
  - destruct Hwin as [Hlt Hwin].
    destruct (modified_at_armed time time' w Harm Hlt) as [Harm' Hchk].
    destruct (IH time' (modified_at time' w) Harm' Hwin) as [Harm'' Hchk'].
    change (run (time' :: rest) w) with (run rest (modified_at time' w)).
    rewrite last_cons. split; [done|]. by rewrite Hchk'.
Qed.

Lemma advance_fires (time time' : Z) (w : SpellcheckText.t) :
  armed time w → time + delay ≤ time' →
  checked (advance time' w) = checked w ++ [time + delay]
  ∧ afterid (advance time' w) = None
  ∧ timers (advance time' w) = [].
Proof.
  destruct w as [nw aid tms nid chk].
  intros (Hnow & id & Hid & Htm) Hle. simpl in *. subst nw aid tms.
  unfold advance. simpl. unfold next_due. simpl.
  rewrite (proj2 (Z.leb_le _ _)) by lia. simpl.
  rewrite filter_cons, decide_False by (simpl; intros H; by apply H).
  rewrite filter_nil. repeat split. f_equal. f_equal. unfold delay. lia.
Qed.

(** C9. Every modification event cancels the timer that is pending, if
    there is one, and files a new one due 200 ms later, so that exactly one
    timer is pending after it. So for a burst of one or more events, each
    less than the delay after the one before it, the check runs exactly
    once, 200 ms after the last event, and not before. *)
Theorem debounce_one_check (t0 first : Z) (rest : list Z) (finish : Z) :
  t0 ≤ first →
  within_window first rest →
  let events := first :: rest in
  let last_event := List.last rest first in
  last_event + 200 ≤ finish →
  delay = 200
  ∧ (∀ (w : SpellcheckText.t) id due,
       afterid w = Some id → timers w = [(id, due)] →
       armed (now w) (on_modify w))
  ∧ (∀ w : SpellcheckText.t,
       afterid w = None → timers w = [] → armed (now w) (on_modify w))
  ∧ armed last_event (run events (init t0))
  ∧ checked (run events (init t0)) = []
  ∧ (∀ time, last_event ≤ time < last_event + 200 →
             checked (advance time (run events (init t0))) = [])
  ∧ checked (advance finish (run events (init t0))) = [last_event + 200]
  ∧ afterid (advance finish (run events (init t0))) = None
  ∧ timers (advance finish (run events (init t0))) = [].
Proof.
  intros Ht0 Hwin events last_event Hfin. subst events last_event.
  assert (Hfirst : armed first (modified_at first (init t0))
                   ∧ checked (modified_at first (init t0)) = []).
  { unfold modified_at.
    destruct (on_modify_armed first (advance first (init t0))) as [H1 H2];
      [by right|simpl; lia|by split]. }
  destruct Hfirst as [Harm Hchk].
  destruct (run_armed rest first _ Harm Hwin) as [Harm' Hchk'].
  change (run (first :: rest) (init t0))
    with (run rest (modified_at first (init t0))).
  rewrite Hchk in Hchk'.
  split; [done|].
  split; [intros w id due Hid Htm; apply on_modify_armed; eauto|].
  split; [intros w Hid Htm; apply on_modify_armed; eauto|].
  split; [done|]. split; [done|]. split.
  - intros time Htime. rewrite (advance_armed (List.last rest first)) by done.
    done.
  - destruct (advance_fires (List.last rest first) finish _ Harm')
      as (Hc & Ha & Ht); [unfold delay; lia|].
    rewrite Hc, Hchk'. done.
Qed.

Lemma debounce_one_check_witness :
  (0 ≤ 1000 ∧ within_window 1000 [1050; 1200; 1399])
  ∧ armed 1399 (run [1000; 1050; 1200; 1399] (init 0))
  ∧ checked (advance 2000 (run [1000; 1050; 1200; 1399] (init 0))) = [1599].
Proof.
  assert (Hwin : within_window 1000 [1050; 1200; 1399]).
  { simpl. unfold delay. lia. }
  split; [split; [lia|exact Hwin]|].
  pose proof (debounce_one_check 0 1000 [1050; 1200; 1399] 2000
                ltac:(lia) Hwin ltac:(simpl; lia)) as H.
  destruct H as (_ & _ & _ & Harm & _ & _ & Hchk & _).
  split; [exact Harm|exact Hchk].
Defined.

End Debounce.

(** * More properties of the code *)

(** ** Moving through the collection *)

Lemma go_to_image_cursor (i : Z) (self : t) :
  0 ≤ index self < Z.of_nat (length (images self)) →
  raised (go_to_image i self) = None
  ∧ index (state_of (go_to_image i self))
    = i `mod` Z.of_nat (length (images self))
  ∧ images (state_of (go_to_image i self)) = images self
  ∧ search_text (state_of (go_to_image i self)) = search_text self
  ∧ base_path (state_of (go_to_image i self)) = base_path self.
Proof.
  intros Hidx.
  destruct (getitem_is_Some (images self) (index self) Hidx) as [img Himg].
  destruct (getitem_is_Some (images self)
              (i `mod` Z.of_nat (length (images self)))) as [img' Himg'].
  { apply Z.mod_pos_bound. lia. }
  by rewrite (go_to_image_run i self img img').
Qed.

(** ** The empty collection and [shuffle_images] *)

Lemma getitem_nil {A} (i : Z) : getitem (@nil A) i = None.
Proof.
  unfold getitem, norm_index. simpl.
  repeat case_bool_decide; try lia; done.
Qed.

(** X4. With no image, the methods that move, search and delete return at
    once and leave the object as it is, whatever the cursor and the search
    text are; [set_index], [shuffle_images] and [update_ui] raise instead,
    and also leave it as it is. *)
Theorem empty_collection (self : t) (i : Z) :
  images self = [] →
  go_to_image i self = Ok tt self
  ∧ next_image self = Ok tt self
  ∧ prev_image self = Ok tt self
  ∧ delete_image self = Ok tt self
  ∧ find_next self = Ok tt self
  ∧ find_prev self = Ok tt self
  ∧ set_index i self = Raise ZeroDivisionError self
  ∧ shuffle_images self = Raise IndexError self
  ∧ update_ui self = Raise AttributeError self.
Proof.
  intros Hnil.
  unfold next_image, prev_image, go_to_image, delete_image, find_next,
    find_prev, set_index, shuffle_images, store_caption, update_ui.
  run. rewrite Hnil, getitem_nil. simpl. repeat split; done.
Qed.

Lemma empty_collection_witness :
  images (init example_disk) = []
  ∧ delete_image (init example_disk) = Ok tt (init example_disk)
  ∧ shuffle_images (init example_disk) = Raise IndexError (init example_disk).
Proof.
  pose proof (empty_collection (init example_disk) 0 eq_refl) as H.
  split; [reflexivity|].
  destruct H as (_ & _ & _ & Hdel & _ & _ & _ & Hshuffle & _).
  split; [exact Hdel|exact Hshuffle].
Defined.


(** ** Deleting *)

Lemma delete_image_stops (self : t) (img : CaptionedImage.t) (base : str) :
  getitem (images self) (index self) = Some img →
  base_path self = Some base →
  files (disk self) !! CaptionedImage.path img = None →
  let trash := path_join base (py "_deleted") in
  delete_image self
  = Raise FileNotFoundError
      (if dir_exists trash (disk self) then self
       else with_disk (mkdir trash (disk self)) self).
Proof.
  intros Hcur Hbase Hnone trash. subst trash.
  unfold delete_image. run.
  rewrite bool_decide_eq_false_2 by (eapply getitem_Some_length; eauto).
  rewrite Hcur, Hbase.
  destruct (dir_exists _ (disk self)); simpl;
    unfold rename_file; run; unfold rename; simpl; by rewrite Hnone.
Qed.

Lemma delete_image_TypeError (self : t) (img : CaptionedImage.t) :
  getitem (images self) (index self) = Some img →
  base_path self = None →
  delete_image self = Raise TypeError self.
Proof.
  intros Hcur Hbase. unfold delete_image. run.
  rewrite bool_decide_eq_false_2 by (eapply getitem_Some_length; eauto).
  by rewrite Hcur, Hbase.
Qed.

(** X6. When the file of the current image is not there, [delete_image]
    raises [FileNotFoundError] from the rename and the image stays in the
    collection: the list, the cursor, the text of the widget and every file
    are as before, and nothing is journalled. Only the folder [_deleted]
    has been made by then. *)
Theorem delete_image_missing_file (self : t) (img : CaptionedImage.t) (base : str) :
  getitem (images self) (index self) = Some img →
  base_path self = Some base →
  files (disk self) !! CaptionedImage.path img = None →
  let r := delete_image self in
  raised r = Some FileNotFoundError
  ∧ images (state_of r) = images self
  ∧ index (state_of r) = index self
  ∧ caption_field (state_of r) = caption_field self
  ∧ files (disk (state_of r)) = files (disk self)
  ∧ journal (state_of r) = journal self
  ∧ path_join base (py "_deleted") ∈ dirs (disk (state_of r)).
Proof.
  intros Hcur Hbase Hnone r. subst r.
  rewrite (delete_image_stops self img base) by done.
  destruct (dir_exists _ (disk self)) eqn:Hdir; simpl; repeat split; try done.
  - by apply bool_decide_eq_true in Hdir.
  - set_solver.
Qed.

Lemma delete_image_missing_file_witness :
  let self := with_disk
                (mkDisk (delete (in_pics "a.jpg") (files example_disk))
                        (dirs example_disk)) example_view in
  files (disk self) !! in_pics "a.jpg" = None
  ∧ raised (delete_image self) = Some FileNotFoundError
  ∧ images (state_of (delete_image self)) = images self.
Proof.
  intros self.
  assert (Hnone : files (disk self) !! in_pics "a.jpg" = None)
    by (vm_compute; reflexivity).
  split; [exact Hnone|].
  destruct (delete_image_missing_file self
              (CaptionedImage.new (in_pics "a.jpg")) pics
              eq_refl eq_refl Hnone) as (Hr & Hi & _).
  split; [exact Hr|exact Hi].
Defined.

(** ** The key bindings *)

Lemma In_range (a b j : Z) : In j (range a b) ↔ a ≤ j < b.
Proof.
  unfold range. rewrite <- list_elem_of_In, elem_of_seqZ. lia.
Qed.

(** Where a search ends: on the object as it was, or wherever a
    [go_to_image] to an index of the collection ends. *)
Lemma find_next_state (self : t) :
  0 ≤ index self < Z.of_nat (length (images self)) →
  state_of (find_next self) = self
  ∨ ∃ j, 0 ≤ j < Z.of_nat (length (images self))
         ∧ find_next self = go_to_image j self.
Proof.
  intros Hidx.
  destruct (decide (search_text self = [])) as [Hq|Hq].
  { left. unfold find_next. run.
    rewrite bool_decide_eq_false_2 by (destruct (images self); simpl in *; [lia|done]).
    by rewrite Hq. }
  assert (Hfound : ∀ j,
            find (hit self)
              (forward_order (index self) (Z.of_nat (length (images self))))
            = Some j →
            0 ≤ j < Z.of_nat (length (images self))).
  { intros j Hj. apply find_some in Hj as [Hin _].
    eapply forward_order_bounds; [|exact Hin]. lia. }
  destruct (decide (index self = Z.of_nat (length (images self)) - 1)) as [E|E].
  - rewrite find_next_run_last by (done || lia).
    destruct (find _ _) as [j|] eqn:Hj; [|by left].
    right. exists j. split; [by apply Hfound|done].
  - rewrite find_next_run by (done || lia).
    destruct (find _ _) as [j|] eqn:Hj; [|by left].
    right. exists j. split; [by apply Hfound|done].
Qed.

Lemma find_prev_state (self : t) :
  0 ≤ index self < Z.of_nat (length (images self)) →
  state_of (find_prev self) = self
  ∨ ∃ j, 0 ≤ j < Z.of_nat (length (images self))
         ∧ find_prev self = go_to_image j self.
Proof.
  intros Hidx.
  destruct (decide (search_text self = [])) as [Hq|Hq].
  { left. unfold find_prev. run.
    rewrite bool_decide_eq_false_2 by (destruct (images self); simpl in *; [lia|done]).
    by rewrite Hq. }
  rewrite find_prev_run by done.
  set (n := Z.of_nat (length (images self))) in *.
  assert (He : 0 ≤ (index self + n - 1) `mod` n < n)
    by (apply Z.mod_pos_bound; lia).
  case_bool_decide; [by left|].
  destruct (find _ _) as [j|] eqn:Hj; [|by left].
  right. exists j. split; [|done].
  apply find_some in Hj as [Hin _].
  apply in_app_or in Hin as [Hin|Hin];
    apply in_rev, In_range in Hin; lia.
Qed.

Lemma go_to_image_keeps_cursor (i : Z) (self : t) :
  cursor_ok self → cursor_ok (state_of (go_to_image i self)).
Proof.
  intros [Hnil|Hidx].
  - left. unfold go_to_image. run. by rewrite Hnil.
  - right. destruct (go_to_image_cursor i self Hidx) as (_ & Hi & Hl & _).
    rewrite Hl, Hi. apply Z.mod_pos_bound. lia.
Qed.

Lemma shuffle_images_state (self : t) :
  images (state_of (shuffle_images self)) = images self
  ∧ index (state_of (shuffle_images self)) = index self.
Proof.
  unfold shuffle_images. unfold mbind, M_bind.
  destruct (getitem (images self) (index self)) as [img|] eqn:Hcur.
  - by rewrite (store_caption_run _ _ Hcur).
  - unfold store_caption. run. by rewrite Hcur.
Qed.

Lemma delete_image_keeps_cursor (self : t) :
  cursor_ok self → cursor_ok (state_of (delete_image self)).
Proof.
  intros [Hnil|Hidx].
  { left. unfold delete_image. run. by rewrite Hnil. }
  destruct (getitem_is_Some (images self) (index self) Hidx) as [img Hcur].
  destruct (base_path self) as [base|] eqn:Hbase.
  2: { rewrite (delete_image_TypeError self img) by done. by right. }
  destruct (files (disk self) !! CaptionedImage.path img) as [data|] eqn:Hdata.
  2: { rewrite (delete_image_stops self img base) by done.
       right. by destruct (dir_exists _ _). }
  destruct (relocate_is_Some img (path_join base (py "_deleted")) (disk self)
              data Hdata) as [d Hrel].
  destruct (delete_image_outcome self img base d ltac:(lia) Hcur Hbase Hrel)
    as (_ & Himgs & Hlen & _ & Hend).
  unfold cursor_ok. rewrite Himgs.
  case_bool_decide as Hempty.
  - left. by apply nil_length_inv.
  - right. destruct Hend as [_ ->]. apply Z.mod_pos_bound. lia.
Qed.

Lemma open_folder_cursor_ok (lower : str → str) (dir : str)
    (walk : list (str * list str)) (self : t) :
  cursor_ok self → cursor_ok (state_of (open_folder lower dir walk self)).
Proof.
  intros Hok. destruct (decide (dir = [])) as [->|Hdir].
  - done.
  - rewrite open_folder_run by done. by left.
Qed.

Lemma handle_keeps_cursor (lower : str → str) (e : KeyEvent) (self : t) :
  cursor_ok self → cursor_ok (state_of (handle lower e self)).
Proof.
  intros Hok. destruct e; simpl.
  - by apply open_folder_cursor_ok.
  - destruct Hok as [Hnil|Hidx].
    + left. unfold find_next. run. by rewrite Hnil.
    + destruct (find_next_state self Hidx) as [->|(j & _ & ->)]; [by right|].
      apply go_to_image_keeps_cursor. by right.
  - destruct Hok as [Hnil|Hidx].
    + left. unfold find_prev. run. by rewrite Hnil.
    + destruct (find_prev_state self Hidx) as [->|(j & _ & ->)]; [by right|].
      apply go_to_image_keeps_cursor. by right.
  - by apply go_to_image_keeps_cursor.
  - by apply go_to_image_keeps_cursor.
  - by apply go_to_image_keeps_cursor.
  - by apply go_to_image_keeps_cursor.
  - by apply go_to_image_keeps_cursor.
  - by apply go_to_image_keeps_cursor.
  - by apply delete_image_keeps_cursor.
  - destruct (shuffle_images_state self) as [Hl Hi].
    unfold cursor_ok. rewrite Hl, Hi. exact Hok.
  - exact Hok.
Qed.



Lemma handle_empty (lower : str → str) (e : KeyEvent) (self : t) :
  images self = [] →
  images (state_of (handle lower e self)) = []
  ∧ index (state_of (handle lower e self)) = index self
  ∧ disk (state_of (handle lower e self)) = disk self.
Proof.
  intros Hnil. destruct e; simpl.
  - destruct (decide (dir = [])) as [->|Hdir]; [done|].
    by rewrite open_folder_run.
  - unfold find_next. run. by rewrite Hnil.
  - unfold find_prev. run. by rewrite Hnil.
  - unfold prev_image, go_to_image. run. by rewrite Hnil.
  - unfold next_image, go_to_image. run. by rewrite Hnil.
  - unfold go_to_image. run. by rewrite Hnil.
  - unfold go_to_image. run. by rewrite Hnil.
  - unfold go_to_image. run. by rewrite Hnil.
  - unfold go_to_image. run. by rewrite Hnil.
  - unfold delete_image. run. by rewrite Hnil.
  - unfold shuffle_images, store_caption. run. by rewrite Hnil, getitem_nil.
  - done.
Qed.



(** ** Searching *)

(** X12. The order in which [find_prev] looks at the captions. With [n]
    images and the cursor on [c] it takes [e = (c - 1) mod n], looks at the
    images [e-1 .. 0] downwards and then at [n-1 .. e], goes to the first
    one whose caption contains the text, and otherwise leaves the object as
    it is. When [e] is 0, which is so with the cursor on image 1 and with a
    single image, it raises [ValueError] without looking at any caption. *)
Theorem find_prev_order (self : t) :
  0 ≤ index self < Z.of_nat (length (images self)) →
  search_text self ≠ [] →
  let n := Z.of_nat (length (images self)) in
  let e := (index self + n - 1) `mod` n in
  e = (if bool_decide (index self = 0) then n - 1 else index self - 1)
  ∧ (e = 0 → find_prev self = Raise ValueError self)
  ∧ (e ≠ 0 →
     match find (hit self) (rev (range 0 e) ++ rev (range e n)) with
     | Some j =>
         index (state_of (find_prev self)) = j ∧ hit self j = true
     | None => find_prev self = Ok tt self
     end).
Proof.
  intros Hidx Hq n e.
  assert (He : 0 ≤ e < n) by (apply Z.mod_pos_bound; lia).
  split.
  { subst e. case_bool_decide as E.
    - rewrite E. replace (0 + n - 1) with (n - 1) by lia.
      apply Z.mod_small. lia.
    - replace (index self + n - 1) with (index self - 1 + 1 * n) by lia.
      rewrite Z_mod_plus_full. apply Z.mod_small. lia. }
  pose proof (find_prev_run self Hidx Hq) as Hrun. simpl in Hrun.
  fold n in Hrun. fold e in Hrun.
  split.
  - intros E. by rewrite Hrun, bool_decide_eq_true_2.
  - intros E. rewrite bool_decide_eq_false_2 in Hrun by done.
    destruct (find _ _) as [j|] eqn:Hj; [|done].
    apply find_some in Hj as [Hin Hhit].
    assert (Hjn : 0 ≤ j < n).
    { apply in_app_or in Hin as [Hin|Hin];
        apply in_rev, In_range in Hin; lia. }
    rewrite Hrun.
    destruct (go_to_image_lands j self Hidx Hjn) as [Hr Hi].
    done.
Qed.

Lemma find_prev_order_witness :
  let self := with_search_text (py "red") (with_index 2 example_view) in
  (0 ≤ index self < Z.of_nat (length (images self)) ∧ search_text self ≠ [])
  ∧ index (state_of (find_prev self)) = 0.
Proof.
  intros self.
  assert (Hidx : 0 ≤ index self < Z.of_nat (length (images self)))
    by (simpl; lia).
  assert (Hq : search_text self ≠ []) by (vm_compute; discriminate).
  split; [by split|].
  destruct (find_prev_order self Hidx Hq) as (_ & _ & H).
  specialize (H ltac:(vm_compute; discriminate)).
  destruct H as (Hi & _).
  exact Hi.
Defined.

(** ** The order of the images *)

Lemma str_lt_asym (a b : str) : str_lt a b = true → str_lt b a = false.
Proof.
  revert b. induction a as [|c a IH]; intros [|d b]; simpl; try done.
  destruct (N.ltb_spec c d), (N.ltb_spec d c), (N.eqb_spec c d),
    (N.eqb_spec d c); simpl; try lia; try done.
  apply IH.
Qed.

Lemma str_le_trans (a b c : str) :
  str_lt b a = false → str_lt c b = false → str_lt c a = false.
Proof.
  revert b c. induction a as [|x a IH]; intros [|y b] [|z c]; simpl;
    try done.
  destruct (N.ltb_spec y x), (N.ltb_spec z y), (N.ltb_spec z x),
    (N.eqb_spec y x), (N.eqb_spec z y), (N.eqb_spec z x);
    simpl; try lia; try done.
  apply IH.
Qed.

Lemma insert_sorted_perm (lower : str → str) (x : CaptionedImage.t)
    (l : list CaptionedImage.t) :
  CaptionedImage.insert_sorted lower x l ≡ₚ x :: l.
Proof.
  induction l as [|y l IH]; simpl; [done|].
  destruct (CaptionedImage.lt lower y x); [|done].
  rewrite IH. apply Permutation_swap.
Qed.

Lemma insert_sorted_ordered (lower : str → str) (x : CaptionedImage.t)
    (l : list CaptionedImage.t) :
  ordered lower l → ordered lower (CaptionedImage.insert_sorted lower x l).
Proof.
  induction l as [|y l IH]; simpl; [by split|].
  intros [Hy Hl].
  destruct (CaptionedImage.lt lower y x) eqn:Hlt; simpl.
  - split; [|by apply IH].
    rewrite insert_sorted_perm. apply Forall_cons. split; [|done].
    by apply str_lt_asym.
  - split; [|by split].
    apply Forall_cons. split; [done|].
    eapply Forall_impl; [exact Hy|]. simpl. intros w Hw.
    unfold CaptionedImage.lt in *. by eapply str_le_trans.
Qed.

(** X14. Sorting with [__lt__] keeps the images, each as often as it was
    there, and puts them in order: in the sorted list no image stands
    before one that is smaller than it. This holds whatever [str.lower]
    does to the paths. *)
Theorem sort_ordered (lower : str → str) (l : list CaptionedImage.t) :
  CaptionedImage.sort lower l ≡ₚ l
  ∧ ordered lower (CaptionedImage.sort lower l).
Proof.
  unfold CaptionedImage.sort. induction l as [|x l [IHp IHo]]; simpl.
  - done.
  - split.
    + rewrite insert_sorted_perm. by rewrite IHp.
    + by apply insert_sorted_ordered.
Qed.


(** ** Checks at the pauses *)

Section Pauses.
Import SpellcheckText.

Lemma advance_fires_state (time time' : Z) (w : SpellcheckText.t) :
  armed time w → time + delay ≤ time' →
  advance time' w
  = SpellcheckText.mk time' None [] (next_id w) (checked w ++ [time + delay]).
Proof.
  destruct w as [nw aid tms nid chk].
  intros (Hnow & id & Hid & Htm) Hle. simpl in *. subst nw aid tms.
  unfold advance. simpl. unfold next_due. simpl.
  rewrite (proj2 (Z.leb_le _ _)) by lia. simpl.
  rewrite filter_cons, decide_False by (simpl; intros H; by apply H).
  rewrite filter_nil. simpl. f_equal; [unfold delay in *; lia|].
  f_equal. f_equal. unfold delay. lia.
Qed.

Lemma modified_at_later (time time' : Z) (w : SpellcheckText.t) :
  armed time w → time ≤ time' → time' ≠ time + delay →
  armed time' (modified_at time' w)
  ∧ checked (modified_at time' w)
    = checked w ++ (if time + delay <=? time' then [time + delay] else []).
Proof.
  intros Harm Hle Hne.
  destruct (Z.leb_spec (time + delay) time') as [Hfire|Hquiet].
  - unfold modified_at. rewrite (advance_fires_state time) by done.
    destruct (on_modify_armed time'
                (SpellcheckText.mk time' None [] (next_id w)
                   (checked w ++ [time + delay]))) as [H1 H2];
      [by right|done|by split].
  - destruct (modified_at_armed time time' w Harm) as [H1 H2]; [lia|].
    split; [done|]. by rewrite app_nil_r.
Qed.

Lemma run_pauses (rest : list Z) (time finish : Z) (w : SpellcheckText.t) :
  armed time w → apart time rest →
  List.last rest time + delay ≤ finish →
  checked (advance finish (run rest w)) = checked w ++ pauses time rest.
Proof.
  revert time w. induction rest as [|time' rest IH]; intros time w Harm Hap Hfin.
  - change (run [] w) with w. simpl in Hfin.
    by rewrite (advance_fires_state time).
  - destruct Hap as (Hle & Hne & Hap).
    destruct (modified_at_later time time' w Harm Hle Hne) as [Harm' Hchk].
    change (run (time' :: rest) w) with (run rest (modified_at time' w)).
    rewrite last_cons in Hfin.
    rewrite (IH time' (modified_at time' w) Harm' Hap Hfin), Hchk.
    by rewrite <- app_assoc.
Qed.

(** X15. The spell check runs once after every pause. For modification
    events in the order of time, none exactly 200 ms after the one before
    it, the check has run, by the time the delay
    has passed after the last event, exactly at the moments 200 ms after
    each event that its successor came more than 200 ms after, and 200 ms
    after the last event, in this order and at no other time. *)
Theorem checks_at_pauses (t0 first : Z) (rest : list Z) (finish : Z) :
  t0 ≤ first →
  apart first rest →
  List.last rest first + delay ≤ finish →
  checked (advance finish (run (first :: rest) (init t0))) = pauses first rest.
Proof.
  intros Ht0 Hap Hfin.
  assert (Hfirst : armed first (modified_at first (init t0))
                   ∧ checked (modified_at first (init t0)) = []).
  { unfold modified_at.
    destruct (on_modify_armed first (advance first (init t0))) as [H1 H2];
      [by right|simpl; lia|by split]. }
  destruct Hfirst as [Harm Hchk].
  change (run (first :: rest) (init t0))
    with (run rest (modified_at first (init t0))).
  by rewrite (run_pauses rest first finish _ Harm Hap Hfin), Hchk.
Qed.

Lemma checks_at_pauses_witness :
  apart 1000 [1050; 1400; 1500; 2000]
  ∧ checked (advance 3000 (run [1000; 1050; 1400; 1500; 2000] (init 0)))
    = [1250; 1700; 2200].
Proof.
  assert (Hap : apart 1000 [1050; 1400; 1500; 2000]).
  { simpl. unfold delay. lia. }
  split; [exact Hap|].
  exact (checks_at_pauses 0 1000 [1050; 1400; 1500; 2000] 3000
           ltac:(lia) Hap ltac:(simpl; unfold delay; lia)).
Defined.

End Pauses.
